(** * TreeNET: Router, AliasHintCollector and SubnetSiteSet

    A shallow embedding of
      - v3/Forester/src/treenet/structure/Router.cpp,
      - v2/Reader/src/aliasresolution/AliasHintCollector.cpp,
      - the adaptRoutes operation declared in SubnetSiteSet.h,
    with the properties of the specification stated over it.  Part I holds
    the model, Part II the properties and their proofs. *)

From Stdlib Require Import ZArith Lia String DecimalString.
From stdpp Require Import base option list sorting gmap.

Local Open Scope Z_scope.

(** * Part I: the model *)

(** ** Machine integers *)

(** Conversion to [unsigned short] (16 bits) and [unsigned long int]
    (64 bits on the LP64 targets the tool is built for). *)
Definition USHORT_MOD : Z := 65536.
Definition ULONG_MOD : Z := 18446744073709551616.

Definition to_ushort (z : Z) : Z := z mod USHORT_MOD.
Definition to_ulong (z : Z) : Z := z mod ULONG_MOD.

Definition is_ushort (z : Z) : Prop := 0 ≤ z < USHORT_MOD.
Definition is_ulong (z : Z) : Prop := 0 ≤ z < ULONG_MOD.

(** ** Addresses *)

(** An [InetAddress] wraps one 32-bit unsigned value. *)
Abbreviation InetAddress := Z (only parsing).

(** Modelled from the spec: [InetAddress::smaller] is declared in
    InetAddress.h, which is not part of the sources at hand; the spec gives
    addresses the total order of their integer value. *)
Definition InetAddress_smaller (a b : InetAddress) : bool := a <? b.

(** Modelled from the spec: [operator==] of InetAddress, the equality of
    the 32-bit values. *)
Definition InetAddress_eq (a b : InetAddress) : bool := a =? b.

(** ** [std::list::sort] *)

(** [std::list<T>::sort(comp)] is a stable sort for the strict weak order
    [comp]: stability and sortedness fix its result, so the model is the
    stable insertion sort.  An element goes behind every element that is
    not greater than it. *)
Section ListSort.
Context {A : Type} (comp : A → A → bool).

Fixpoint sort_insert (x : A) (l : list A) : list A :=
  match l with
  | [] => [x]
  | y :: l' => if comp x y then x :: y :: l' else y :: sort_insert x l'
  end.

Definition list_sort (l : list A) : list A :=
  foldl (λ acc x, sort_insert x acc) [] l.

End ListSort.

(** Sorting by a key of type [Z] with [comp x y := key x <? key y]. *)
Section KeySort.
Context {A : Type} (key : A → Z).

Definition key_lt (x y : A) : bool := key x <? key y.
Definition key_le (x y : A) : Prop := key x ≤ key y.

End KeySort.

(** ** IP table *)

(** Modelled from the spec: IPTableEntry.h and IPLookUpTable.h are not
    part of the sources at hand.  The spec describes the IP Table as a
    mapping from IPv4 addresses to probing-state records and lists the
    classifications of the IP-ID counter; the record keeps the attributes
    that Router.cpp and AliasHintCollector.cpp read or write. *)
Inductive IPIDCounterType : Type :=
  | UNKNOWN_COUNTER
  | HEALTHY_COUNTER
  | RANDOM_COUNTER
  | ECHO_COUNTER
  | FAST_COUNTER.

Global Instance IPIDCounterType_eq_dec : EqDecision IPIDCounterType.
Proof. solve_decision. Defined.

(** Modelled from the spec: an IPTableEntry (IPTableEntry.h), with its
    address, the TTL to reach it and the classification of its counter. *)
Record IPTableEntry : Type := mkEntry {
  entry_ip : InetAddress;
  entry_TTL : Z;
  entry_counterType : IPIDCounterType
}.

(** Modelled from the spec: the IPLookUpTable (IPLookUpTable.h), a mapping
    from addresses to entries. *)
Abbreviation IPLookUpTable := (gmap Z IPTableEntry).

(** Modelled from the spec: [IPLookUpTable::lookUp], the entry of the
    address or NULL. *)
Definition lookUp (table : IPLookUpTable) (ip : InetAddress) : option IPTableEntry :=
  table !! ip.

(** Modelled from the spec: the entry that [IPLookUpTable::create] makes
    for an address that has none yet ("created on first mention"). *)
Definition new_entry (ip : InetAddress) : IPTableEntry :=
  mkEntry ip 0 UNKNOWN_COUNTER.

(** Modelled from the spec: [IPTableEntry::setTTL]. *)
Definition setTTL (e : IPTableEntry) (ttl : Z) : IPTableEntry :=
  mkEntry (entry_ip e) ttl (entry_counterType e).

(** ** Router.cpp *)

Module Router.

(** Modelled from the spec: RouterInterface.h is not part of the sources at
    hand; the spec gives a RouterInterface an ip and an alias method out of
    six, and orders interfaces by ip.  Router.cpp passes the alias method
    as an unsigned short and compares it with
    RouterInterface::UDP_PORT_UNREACHABLE only. *)
Inductive AliasMethod : Type :=
  | IP_ID_BASED
  | UDP_PORT_UNREACHABLE
  | REVERSE_DNS
  | GROUP_ECHO
  | GROUP_RANDOM
  | GROUP_RESERVED.

Global Instance AliasMethod_eq_dec : EqDecision AliasMethod.
Proof. solve_decision. Defined.

Record RouterInterface : Type := mkInterface {
  ip : InetAddress;
  aliasMethod : AliasMethod
}.

(** Modelled from the spec: [RouterInterface::smaller], the order by ip. *)
Definition RouterInterface_smaller : RouterInterface → RouterInterface → bool :=
  key_lt ip.

(** A Router is its list of interfaces. *)
Record Router : Type := mkRouter { interfaces : list RouterInterface }.

(** [Router::Router()] *)
Definition Router_new : Router := mkRouter [].

(** [Router::addInterface]: push_back, then sort. *)
Definition addInterface (r : Router) (interface : InetAddress)
    (method : AliasMethod) : Router :=
  let newInterface := mkInterface interface method in
  mkRouter (list_sort RouterInterface_smaller (interfaces r ++ [newInterface])).

(** [Router::getNbInterfaces]: the size, converted to unsigned short. *)
Definition getNbInterfaces (r : Router) : Z :=
  to_ushort (Z.of_nat (length (interfaces r))).

(** [Router::hasInterface] *)
Fixpoint hasInterface_loop (l : list RouterInterface) (interface : InetAddress) : bool :=
  match l with
  | [] => false
  | i :: l' => if InetAddress_eq (ip i) interface then true
               else hasInterface_loop l' interface
  end.

Definition hasInterface (r : Router) (interface : InetAddress) : bool :=
  hasInterface_loop (interfaces r) interface.

(** [Router::getMergingPivot]: NULL is [None]. *)
Fixpoint getMergingPivot_loop (l : list RouterInterface) (table : IPLookUpTable)
    : option IPTableEntry :=
  match l with
  | [] => None
  | interface :: l' =>
      if decide (aliasMethod interface = UDP_PORT_UNREACHABLE) then
        match lookUp table (ip interface) with
        | Some entry =>
            if decide (entry_counterType entry = HEALTHY_COUNTER)
            then Some entry
            else getMergingPivot_loop l' table
        | None => getMergingPivot_loop l' table
        end
      else getMergingPivot_loop l' table
  end.

Definition getMergingPivot (r : Router) (table : IPLookUpTable)
    : option IPTableEntry :=
  getMergingPivot_loop (interfaces r) table.

(** [Router::toString].  The stream insertion of an InetAddress is declared
    in InetAddress.h and is taken as the parameter [print]. *)
Section ToString.
Variable print : InetAddress → string.

Fixpoint toString_loop (first : bool) (result : string)
    (l : list RouterInterface) : string :=
  match l with
  | [] => result
  | it :: l' =>
      let result := if first then result else (result ++ " ")%string in
      toString_loop false (result ++ print (ip it))%string l'
  end.

Definition toString (r : Router) : string :=
  toString_loop true "" (interfaces r).
End ToString.

(** A printer of addresses in dotted-quad notation, the notation of the
    external formats of the specification, for the examples. *)
Definition print_octet (n : Z) : string :=
  NilZero.string_of_uint (N.to_uint (Z.to_N n)).

Definition print_dotted (a : InetAddress) : string :=
  (print_octet (a / 16777216 mod 256) ++ "." ++ print_octet (a / 65536 mod 256)
   ++ "." ++ print_octet (a / 256 mod 256) ++ "." ++ print_octet (a mod 256))%string.

(** The Router reached from the constructor by a sequence of addInterface
    calls. *)
Definition build (calls : list (InetAddress * AliasMethod)) : Router :=
  foldl (λ r c, addInterface r c.1 c.2) Router_new calls.

(** The invariant that the specification gives to a Router. *)
Definition Router_invariant (r : Router) : Prop :=
  (2 ≤ length (interfaces r))%nat ∨
  ∃ i, interfaces r = [i] ∧ aliasMethod i = UDP_PORT_UNREACHABLE.

(** An interface that getMergingPivot can return the entry of. *)
Definition pivot_candidate (table : IPLookUpTable) (i : RouterInterface) : Prop :=
  aliasMethod i = UDP_PORT_UNREACHABLE ∧
  ∃ e, lookUp table (ip i) = Some e ∧ entry_counterType e = HEALTHY_COUNTER.

Definition ips (r : Router) : list InetAddress := ip <$> interfaces r.

Global Instance pivot_candidate_dec table i : Decision (pivot_candidate table i).
Proof.
  unfold pivot_candidate.
  destruct (decide (aliasMethod i = UDP_PORT_UNREACHABLE)) as [Hm|Hm];
    [|right; tauto].
  destruct (lookUp table (ip i)) as [e|] eqn:He.
  - destruct (decide (entry_counterType e = HEALTHY_COUNTER)) as [Hc|Hc].
    + left. eauto.
    + right. intros (_ & e' & [= <-] & ?). done.
  - right. intros (_ & e' & [=] & ?).
Defined.

End Router.

(** ** AliasHintCollector.cpp *)

Module AliasHintCollector.

(** *** The collector and its probe tokens *)

(** The fields of the class that the methods at hand use.  The environment
    is passed to [collect] where it is read. *)
Record Collector : Type := mkCollector {
  IPsToProbe : list InetAddress;
  currentTTL : Z;
  tokenCounter : Z
}.

(** [AliasHintCollector::AliasHintCollector]: the list starts empty and the
    counter at 1.  The constructor leaves [currentTTL] unset; the model
    takes the value it holds as an argument. *)
Definition AliasHintCollector_new (ttl : Z) : Collector := mkCollector [] ttl 1.

(** [AliasHintCollector::getProbeToken]: the counter is an
    [unsigned long int]. *)
Definition getProbeToken (c : Collector) : Z * Collector :=
  let token := tokenCounter c in
  (token, mkCollector (IPsToProbe c) (currentTTL c) (to_ulong (tokenCounter c + 1))).

(** The tokens returned by [n] successive calls, in call order. *)
Fixpoint getProbeTokens (n : nat) (c : Collector) : list Z * Collector :=
  match n with
  | O => ([], c)
  | S n' =>
      let '(token, c1) := getProbeToken c in
      let '(tokens, c2) := getProbeTokens n' c1 in
      (token :: tokens, c2)
  end.

(** *** The preprocessing loop of [collect] *)

(** Lines 39 to 58, from the iterator on: [previous], the elements of the
    sorted list not visited yet and the table.  The result is the list of
    the elements that are kept, and the table.  [erase(i--)] takes the
    element out and leaves the iterator on the element in front of it, so
    that [++i] goes on with the next one; on the first element the
    iterator steps back to the list's end node, from which [++i] reaches
    the new first element. *)
Fixpoint preprocess (ttl : Z) (previous : InetAddress) (l : list InetAddress)
    (table : IPLookUpTable) : list InetAddress * IPLookUpTable :=
  match l with
  | [] => ([], table)
  | current :: rest =>
      if InetAddress_eq current previous then
        preprocess ttl current rest table
      else
        let table1 :=
          match lookUp table current with
          | None => <[current := setTTL (new_entry current) ttl]> table
          | Some _ => table
          end in
        let '(kept, table2) := preprocess ttl current rest table1 in
        (current :: kept, table2)
  end.

(** Lines 38 to 58. *)
Definition sort_and_preprocess (c : Collector) (table : IPLookUpTable)
    : list InetAddress * IPLookUpTable :=
  preprocess (currentTTL c) 0 (list_sort InetAddress_smaller (IPsToProbe c)) table.

(** *** The four probing phases of [collect] *)

(** The environment values that [collect] reads (TreeNETEnvironment.h is
    not part of the sources at hand). *)
Record TreeNETEnvironment : Type := mkEnv {
  getMaxThreads : Z;
  getNbIPIDs : Z
}.

(** DirectProber.h is not part of the sources at hand: the four port
    constants that [collect] hands to the units of phases 2 and 3 are
    parameters of the model. *)
Record DirectProber : Type := mkPorts {
  DEFAULT_LOWER_SRC_PORT_ICMP_ID : Z;
  DEFAULT_UPPER_SRC_PORT_ICMP_ID : Z;
  DEFAULT_LOWER_DST_PORT_ICMP_SEQ : Z;
  DEFAULT_UPPER_DST_PORT_ICMP_SEQ : Z
}.

(** What a Thread runs, with the arguments that [collect] gives it. *)
Inductive Runnable : Type :=
  | IPIDCollector (target : InetAddress) (offset : Z)
  | UDPUnreachablePortUnit (target : InetAddress)
      (lowerSrc upperSrc lowerDst upperDst : Z)
  | TimestampCheckUnit (target : InetAddress)
      (lowerSrc upperSrc lowerDst upperDst : Z)
  | ReverseDNSUnit (target : InetAddress).

Global Instance Runnable_eq_dec : EqDecision Runnable.
Proof. solve_decision. Defined.

(** The phase that a unit belongs to. *)
Definition phase_of (u : Runnable) : Z :=
  match u with
  | IPIDCollector _ _ => 1
  | UDPUnreachablePortUnit _ _ _ _ _ => 2
  | TimestampCheckUnit _ _ _ _ _ => 3
  | ReverseDNSUnit _ => 4
  end.

(** What the orchestrating thread does to its workers, in program order:
    [th[slot]->start()] and [th[slot]->join()].  The sleeps between two
    starts and the messages on the output stream are left out. *)
Inductive Event : Type :=
  | Start (slot : Z) (u : Runnable)
  | Join (slot : Z) (u : Runnable).

Global Instance Event_eq_dec : EqDecision Event.
Proof. solve_decision. Defined.

(** The array [th]: a slot is NULL or holds the thread of a unit. *)
Abbreviation Pool := (list (option Runnable)).

(** The body of a scheduling loop on slot [j]: join and delete the thread
    that the slot holds, then start the thread of [u] in it.  An index
    outside of the array has no defined behaviour ([None]). *)
Definition dispatch (th : Pool) (j : Z) (u : Runnable) : option (Pool * list Event) :=
  match th !! Z.to_nat j with
  | None => None
  | Some slot =>
      let joined := match slot with
                    | Some old => [Join j old]
                    | None => []
                    end in
      Some (<[Z.to_nat j := Some u]> th, joined ++ [Start j u])
  end.

(** A scheduling loop: one iteration per address of the list, which has
    [nbIPs] elements; [j] is an unsigned short and goes back to 0 when it
    reaches [limit]. *)
Fixpoint schedule (mk : Z → InetAddress → Runnable) (limit : Z)
    (ips : list InetAddress) (j : Z) (th : Pool) : option (Pool * list Event) :=
  match ips with
  | [] => Some (th, [])
  | IPToProbe :: rest =>
      match dispatch th j (mk j IPToProbe) with
      | None => None
      | Some (th1, events1) =>
          let j1 := to_ushort (j + 1) in
          let j2 := if j1 =? limit then 0 else j1 in
          match schedule mk limit rest j2 th1 with
          | None => None
          | Some (th2, events2) => Some (th2, events1 ++ events2)
          end
      end
  end.

(** The loop that waits for the remaining threads, from index [i] on. *)
Fixpoint drain (i : Z) (th : Pool) : list Event :=
  match th with
  | [] => []
  | slot :: th' =>
      match slot with
      | Some u => Join i u :: drain (i + 1) th'
      | None => drain (i + 1) th'
      end
  end.

(** The array after that loop: every slot is NULL. *)
Definition cleared (th : Pool) : Pool := replicate (length th) None.

(** Lines 68 to 75: the size of the array of phase 1. *)
Definition collectors_nbThreads (maxThreads nbIPIDs nbIPs : Z) : Z :=
  let maxCollectors := to_ushort (maxThreads ÷ (nbIPIDs + 1)) in
  if nbIPs >? maxCollectors then maxCollectors else to_ushort nbIPs.

(** Lines 130 to 133: the size of the array of phases 2 to 4. *)
Definition units_nbThreads (maxThreads nbIPs : Z) : Z :=
  if nbIPs >? maxThreads then maxThreads else to_ushort nbIPs.

(** Line 142; a division by zero has no defined behaviour. *)
Definition port_range (dp : DirectProber) (maxThreads : Z) : option Z :=
  if maxThreads =? 0 then None
  else Some (to_ushort ((DEFAULT_UPPER_SRC_PORT_ICMP_ID dp
                         - DEFAULT_LOWER_SRC_PORT_ICMP_ID dp) ÷ maxThreads)).

(** The source ports handed to the unit started in slot [j]. *)
Definition band_lower (dp : DirectProber) (range j : Z) : Z :=
  DEFAULT_LOWER_SRC_PORT_ICMP_ID dp + j * range.
Definition band_upper (dp : DirectProber) (range j : Z) : Z :=
  DEFAULT_LOWER_SRC_PORT_ICMP_ID dp + j * range + range - 1.

(** The units of the four phases, by slot and address. *)
Definition phase1_unit (nbIPIDs : Z) (j : Z) (ip : InetAddress) : Runnable :=
  IPIDCollector ip (j * nbIPIDs).
Definition phase2_unit (dp : DirectProber) (range : Z) (j : Z) (ip : InetAddress)
    : Runnable :=
  UDPUnreachablePortUnit ip (band_lower dp range j) (band_upper dp range j)
    (DEFAULT_LOWER_DST_PORT_ICMP_SEQ dp) (DEFAULT_UPPER_DST_PORT_ICMP_SEQ dp).
Definition phase3_unit (dp : DirectProber) (range : Z) (j : Z) (ip : InetAddress)
    : Runnable :=
  TimestampCheckUnit ip (band_lower dp range j) (band_upper dp range j)
    (DEFAULT_LOWER_DST_PORT_ICMP_SEQ dp) (DEFAULT_UPPER_DST_PORT_ICMP_SEQ dp).
Definition phase4_unit (j : Z) (ip : InetAddress) : Runnable :=
  ReverseDNSUnit ip.

(** What [collect] leaves: the collector, the table as the orchestrating
    thread wrote it (the units that fill the entries are not part of the
    sources at hand), and the starts and joins in program order. *)
Record Outcome : Type := mkOutcome {
  out_collector : Collector;
  out_table : IPLookUpTable;
  out_trace : list Event
}.

(** Phases 1 to 4, lines 61 to 270, on the list left by the preprocessing. *)
Definition run_phases (env : TreeNETEnvironment) (dp : DirectProber)
    (ips : list InetAddress) : option (list Event) :=
  let maxThreads := to_ushort (getMaxThreads env) in
  let nbIPIDs := to_ushort (getNbIPIDs env) in
  let nbIPs := Z.of_nat (length ips) in
  if nbIPs =? 0 then Some []
  else
    let nbThreads := collectors_nbThreads maxThreads nbIPIDs nbIPs in
    let th := replicate (Z.to_nat nbThreads) None in
    '(th, events1) ← schedule (phase1_unit nbIPIDs) nbThreads ips 0 th;
    let joins1 := drain 0 th in
    let nbThreads := units_nbThreads maxThreads nbIPs in
    let th := replicate (Z.to_nat nbThreads) None in
    range ← port_range dp maxThreads;
    '(th, events2) ← schedule (phase2_unit dp range) maxThreads ips 0 th;
    let joins2 := drain 0 th in
    '(th, events3) ← schedule (phase3_unit dp range) maxThreads ips 0 (cleared th);
    let joins3 := drain 0 th in
    '(th, events4) ← schedule phase4_unit maxThreads ips 0 (cleared th);
    let joins4 := drain 0 th in
    Some ((events1 ++ joins1) ++ (events2 ++ joins2)
          ++ (events3 ++ joins3) ++ (events4 ++ joins4)).

(** [AliasHintCollector::collect].  Phase 1 takes the addresses out of
    [IPsToProbe]; the later phases read the copies made before it. *)
Definition collect (env : TreeNETEnvironment) (dp : DirectProber)
    (c : Collector) (table : IPLookUpTable) : option Outcome :=
  let '(ips, table1) := sort_and_preprocess c table in
  events ← run_phases env dp ips;
  Some (mkOutcome (mkCollector [] (currentTTL c) (tokenCounter c)) table1 events).

(** *** Reading a trace *)

Definition event_slot (e : Event) : Z :=
  match e with Start j _ | Join j _ => j end.

Definition event_unit (e : Event) : Runnable :=
  match e with Start _ u | Join _ u => u end.

(** Every unit that the array holds satisfies [Q] with the index of its
    slot. *)
Definition pool_ok (Q : Z → Runnable → Prop) (th : Pool) : Prop :=
  ∀ i u, th !! i = Some (Some u) → Q (Z.of_nat i) u.

(** The workers that run after a sequence of starts and joins, by slot.  A
    start in a slot whose worker still runs, or a join of a worker that
    does not run in the slot, makes the sequence ill-formed. *)
Fixpoint replay (events : list Event) (running : gmap Z Runnable)
    : option (gmap Z Runnable) :=
  match events with
  | [] => Some running
  | Start j u :: rest =>
      match running !! j with
      | None => replay rest (<[j := u]> running)
      | Some _ => None
      end
  | Join j u :: rest =>
      if decide (running !! j = Some u) then replay rest (delete j running)
      else None
  end.

(** The array [th], from index [i] on, holds the workers of [running]. *)
Definition represents (i : Z) (th : Pool) (running : gmap Z Runnable) : Prop :=
  ∀ j u, running !! j = Some u ↔ i ≤ j ∧ th !! Z.to_nat (j - i) = Some (Some u).

(** The barrier between the phases, on a trace: when a unit starts, every
    unit of an earlier phase that was started has been joined since, and
    none is started afterwards. *)
Definition barrier (trace : list Event) : Prop :=
  ∀ l1 j' u' l2, trace = l1 ++ Start j' u' :: l2 →
  ∀ j u, phase_of u < phase_of u' →
    (Start j u ∉ l2) ∧ (∀ a b, l1 = a ++ Start j u :: b → Join j u ∈ b).

(** Every unit started in the trace is joined later in the trace. *)
Definition drained (trace : list Event) : Prop :=
  ∀ a j u b, trace = a ++ Start j u :: b → Join j u ∈ b.

(** An execution: the steps of the orchestrating thread, and between them
    the steps in which a worker writes its result to the table. *)
Inductive Step : Type :=
  | Orchestrator (e : Event)
  | Write (slot : Z) (u : Runnable).

Definition orchestrator_step (s : Step) : option Event :=
  match s with Orchestrator e => Some e | Write _ _ => None end.

(** An execution belongs to a trace when the orchestrating thread does the
    events of the trace in their order, and a worker writes only while it
    runs: after its start and before the join that follows it. *)
Definition interleaving (exec : list Step) (trace : list Event) : Prop :=
  omap orchestrator_step exec = trace ∧
  ∀ e1 j u e2, exec = e1 ++ Write j u :: e2 →
    ∃ a b, e1 = a ++ Orchestrator (Start j u) :: b ∧
           Orchestrator (Join j u) ∉ b.

(** The source ports of a unit of phase 2 or 3. *)
Definition unit_band (u : Runnable) : option (Z * Z) :=
  match u with
  | UDPUnreachablePortUnit _ lowerSrc upperSrc _ _
  | TimestampCheckUnit _ lowerSrc upperSrc _ _ => Some (lowerSrc, upperSrc)
  | IPIDCollector _ _ | ReverseDNSUnit _ => None
  end.

(** A unit with source ports, in slot [j], has the band of the slot. *)
Definition band_of_slot (dp : DirectProber) (range maxThreads : Z)
    (j : Z) (u : Runnable) : Prop :=
  ∀ lo hi, unit_band u = Some (lo, hi) →
    0 ≤ j < maxThreads ∧
    lo = band_lower dp range j ∧ hi = band_upper dp range j.

(** The index [j] stays inside of an array of [n] slots when the loop wraps
    it at [limit] with [limit ≤ n], or when the list is not longer than
    what is left of the array and the array is not longer than [limit]. *)
Definition in_bounds (limit : Z) (ips : list InetAddress) (j : Z) (th : Pool) : Prop :=
  0 ≤ j ∧ limit < USHORT_MOD ∧
  ((0 < limit ≤ Z.of_nat (length th) ∧ j < limit) ∨
   (j + Z.of_nat (length ips) ≤ Z.of_nat (length th) ∧
    Z.of_nat (length th) ≤ limit)).

(** The starts of a trace in program order, each with its slot. *)
Definition starts (events : list Event) : list (Z * Runnable) :=
  omap (λ e, match e with
             | Start j u => Some (j, u)
             | Join _ _ => None
             end) events.

(** The address that a unit probes. *)
Definition unit_target (u : Runnable) : InetAddress :=
  match u with
  | IPIDCollector target _
  | UDPUnreachablePortUnit target _ _ _ _
  | TimestampCheckUnit target _ _ _ _
  | ReverseDNSUnit target => target
  end.

(** Slots taken in turn: the address of index [i] goes to slot
    [i mod limit], with the unit that [mk] makes for this slot. *)
Definition round_robin (mk : Z → InetAddress → Runnable) (limit : Z)
    (ips : list InetAddress) : list (Z * Runnable) :=
  imap (λ i ip, (Z.of_nat i mod limit, mk (Z.of_nat i mod limit) ip)) ips.

(** *** The loops without a check of the index *)

(** C++ gives an access outside of the array no defined behaviour, and
    [dispatch] has none there.  The compiled loops do not check the index:
    [th[j]] is the cell [j] slots from the start of the array, inside of
    the array or behind it.  [Cells] is that memory by index; a cell that
    holds NULL is absent, and the cells of a new array and behind it are
    taken to hold NULL. *)
Abbreviation Cells := (gmap Z Runnable).

(** The body of a scheduling loop on cell [j]. *)
Definition dispatch_unchecked (th : Cells) (j : Z) (u : Runnable)
    : Cells * list Event :=
  let joined := match th !! j with
                | Some old => [Join j old]
                | None => []
                end in
  (<[j := u]> th, joined ++ [Start j u]).

(** A scheduling loop, as [schedule]. *)
Fixpoint schedule_unchecked (mk : Z → InetAddress → Runnable) (limit : Z)
    (ips : list InetAddress) (j : Z) (th : Cells) : Cells * list Event :=
  match ips with
  | [] => (th, [])
  | IPToProbe :: rest =>
      let '(th1, events1) := dispatch_unchecked th j (mk j IPToProbe) in
      let j1 := to_ushort (j + 1) in
      let j2 := if j1 =? limit then 0 else j1 in
      let '(th2, events2) := schedule_unchecked mk limit rest j2 th1 in
      (th2, events1 ++ events2)
  end.

(** The loop that waits for the remaining threads: it visits the
    [nbThreads] cells of the array from index [i] on, and no cell behind
    the array. *)
Fixpoint drain_unchecked (nbThreads : nat) (i : Z) (th : Cells)
    : Cells * list Event :=
  match nbThreads with
  | O => (th, [])
  | S n =>
      match th !! i with
      | Some u =>
          let '(th1, joins) := drain_unchecked n (i + 1) (delete i th) in
          (th1, Join i u :: joins)
      | None => drain_unchecked n (i + 1) th
      end
  end.

(** Phases 1 to 4 as [run_phases], on these loops.  The array of phase 1
    is deleted after its loops and a new one serves phases 2 to 4.  The
    division of line 142 by zero is left without a defined behaviour. *)
Definition run_phases_unchecked (env : TreeNETEnvironment) (dp : DirectProber)
    (ips : list InetAddress) : option (list Event) :=
  let maxThreads := to_ushort (getMaxThreads env) in
  let nbIPIDs := to_ushort (getNbIPIDs env) in
  let nbIPs := Z.of_nat (length ips) in
  if nbIPs =? 0 then Some []
  else
    let nbThreads := collectors_nbThreads maxThreads nbIPIDs nbIPs in
    let '(th, events1) :=
      schedule_unchecked (phase1_unit nbIPIDs) nbThreads ips 0 ∅ in
    let '(_, joins1) := drain_unchecked (Z.to_nat nbThreads) 0 th in
    let nbThreads := units_nbThreads maxThreads nbIPs in
    range ← port_range dp maxThreads;
    let '(th, events2) :=
      schedule_unchecked (phase2_unit dp range) maxThreads ips 0 ∅ in
    let '(th, joins2) := drain_unchecked (Z.to_nat nbThreads) 0 th in
    let '(th, events3) :=
      schedule_unchecked (phase3_unit dp range) maxThreads ips 0 th in
    let '(th, joins3) := drain_unchecked (Z.to_nat nbThreads) 0 th in
    let '(th, events4) := schedule_unchecked phase4_unit maxThreads ips 0 th in
    let '(_, joins4) := drain_unchecked (Z.to_nat nbThreads) 0 th in
    Some ((events1 ++ joins1) ++ (events2 ++ joins2)
          ++ (events3 ++ joins3) ++ (events4 ++ joins4)).

(** [AliasHintCollector::collect] on these loops. *)
Definition collect_unchecked (env : TreeNETEnvironment) (dp : DirectProber)
    (c : Collector) (table : IPLookUpTable) : option Outcome :=
  let '(ips, table1) := sort_and_preprocess c table in
  events ← run_phases_unchecked env dp ips;
  Some (mkOutcome (mkCollector [] (currentTTL c) (tokenCounter c)) table1 events).

End AliasHintCollector.

(** ** SubnetSiteSet: adaptRoutes *)

Module SubnetSiteSet.

(** Modelled from the spec: SubnetSite.h is not part of the sources at
    hand.  The spec gives a SubnetSite a prefix and its length, a status, a
    pivot with its TTL, a list of interfaces with their TTL and a route,
    whose hops are addresses, 0.0.0.0 standing for a missing hop. *)
Inductive SubnetStatus : Type := ACCURATE | ODD | SHADOW | UNDEFINED.

Record SubnetSite : Type := mkSite {
  prefix : InetAddress;
  prefixLength : Z;
  status : SubnetStatus;
  pivotIP : InetAddress;
  pivotTTL : Z;
  interfaces : list (InetAddress * Z);
  route : list InetAddress
}.

Global Instance SubnetStatus_eq_dec : EqDecision SubnetStatus.
Proof. solve_decision. Defined.

Global Instance SubnetSite_eq_dec : EqDecision SubnetSite.
Proof. solve_decision. Defined.

(** Modelled from the spec: SubnetSiteSet.cpp is not part of the sources at
    hand, only the declaration of [adaptRoutes] in SubnetSiteSet.h is.  The
    spec: for every site whose route begins with oldPrefix (exact sequence
    equality of length |oldPrefix|), replace that prefix with newPrefix;
    returns the count of modified sites.  The arrays [prefix] and
    [newPrefix] with their sizes [sPrefix] and [sNew] are lists. *)
Fixpoint route_begins_with (oldPrefix r : list InetAddress) : bool :=
  match oldPrefix, r with
  | [], _ => true
  | _ :: _, [] => false
  | p :: oldPrefix', hop :: r' =>
      InetAddress_eq hop p && route_begins_with oldPrefix' r'
  end.

(** Modelled from the spec: the route of the site, with its first
    |oldPrefix| hops replaced by newPrefix. *)
Definition adaptRoute (ss : SubnetSite) (oldPrefix newPrefix : list InetAddress)
    : SubnetSite :=
  mkSite (prefix ss) (prefixLength ss) (status ss) (pivotIP ss) (pivotTTL ss)
    (interfaces ss) (newPrefix ++ drop (length oldPrefix) (route ss)).

(** Modelled from the spec: the walk through the list of sites; the number
    of adaptations is counted in an unsigned short, the type that the
    declaration returns. *)
Fixpoint adaptRoutes_loop (siteList : list SubnetSite)
    (oldPrefix newPrefix : list InetAddress) (nbAdaptations : Z)
    : Z * list SubnetSite :=
  match siteList with
  | [] => (nbAdaptations, [])
  | ss :: rest =>
      if route_begins_with oldPrefix (route ss) then
        let '(nb, rest') :=
          adaptRoutes_loop rest oldPrefix newPrefix (to_ushort (nbAdaptations + 1)) in
        (nb, adaptRoute ss oldPrefix newPrefix :: rest')
      else
        let '(nb, rest') := adaptRoutes_loop rest oldPrefix newPrefix nbAdaptations in
        (nb, ss :: rest')
  end.

(** Modelled from the spec: [SubnetSiteSet::adaptRoutes], as the returned
    count and the list of sites after the call. *)
Definition adaptRoutes (siteList : list SubnetSite)
    (oldPrefix newPrefix : list InetAddress) : Z * list SubnetSite :=
  adaptRoutes_loop siteList oldPrefix newPrefix 0.

(** The sites that a call modifies. *)
Definition matching (oldPrefix : list InetAddress) (siteList : list SubnetSite)
    : list SubnetSite :=
  filter (λ ss, route_begins_with oldPrefix (route ss) = true) siteList.

(** What a call makes of one site. *)
Definition adapted (oldPrefix newPrefix : list InetAddress) (ss : SubnetSite)
    : SubnetSite :=
  if route_begins_with oldPrefix (route ss) then adaptRoute ss oldPrefix newPrefix
  else ss.

End SubnetSiteSet.

(** * Part II: properties *)

(** ** Machine integers *)

Lemma to_ushort_id z : is_ushort z → to_ushort z = z.
Proof. unfold is_ushort, to_ushort. intros H. by apply Z.mod_small. Qed.

Lemma to_ulong_id z : is_ulong z → to_ulong z = z.
Proof. unfold is_ulong, to_ulong. intros H. by apply Z.mod_small. Qed.

(** ** Sorting *)

Section ListSortFacts.
Context {A : Type} (comp : A → A → bool).

Lemma sort_insert_Permutation x l : sort_insert comp x l ≡ₚ x :: l.
Proof.
  induction l as [|y l IH]; simpl; [done|].
  destruct (comp x y); [done|].
  rewrite IH. apply Permutation_swap.
Qed.

Lemma length_sort_insert x l : length (sort_insert comp x l) = S (length l).
Proof. by rewrite sort_insert_Permutation. Qed.

Lemma list_sort_snoc l x :
  list_sort comp (l ++ [x]) = sort_insert comp x (list_sort comp l).
Proof. unfold list_sort. by rewrite foldl_app. Qed.

Lemma list_sort_Permutation l : list_sort comp l ≡ₚ l.
Proof.
  induction l as [|x l IH] using rev_ind; [done|].
  rewrite list_sort_snoc, sort_insert_Permutation, IH.
  by rewrite Permutation_app_comm.
Qed.

Lemma length_list_sort l : length (list_sort comp l) = length l.
Proof. by rewrite list_sort_Permutation. Qed.

End ListSortFacts.

Section KeySortFacts.
Context {A : Type} (key : A → Z).

Lemma sort_insert_HdRel a x l :
  key_le key a x → HdRel (key_le key) a l →
  HdRel (key_le key) a (sort_insert (key_lt key) x l).
Proof.
  intros Hax Hal. destruct l as [|y l]; simpl; [by constructor|].
  destruct (key_lt key x y); constructor; [done|].
  by inversion Hal.
Qed.

Lemma sort_insert_Sorted x l :
  Sorted (key_le key) l → Sorted (key_le key) (sort_insert (key_lt key) x l).
Proof.
  induction 1 as [|y l Hl IH Hhd]; simpl.
  - repeat constructor.
  - destruct (key_lt key x y) eqn:Hxy; unfold key_lt in Hxy.
    + constructor; [by constructor|].
      constructor. unfold key_le. lia.
    + constructor; [done|].
      apply sort_insert_HdRel; [|done]. unfold key_le. lia.
Qed.

Lemma list_sort_Sorted l : Sorted (key_le key) (list_sort (key_lt key) l).
Proof.
  induction l as [|x l IH] using rev_ind; [constructor|].
  rewrite list_sort_snoc. by apply sort_insert_Sorted.
Qed.

Global Instance key_le_trans : Transitive (key_le key).
Proof. unfold key_le. intros x y z. lia. Qed.

(** An element that is not smaller than any element of the list goes to
    the back. *)
Lemma sort_insert_snoc x l :
  Forall (λ y, key_le key y x) l → sort_insert (key_lt key) x l = l ++ [x].
Proof.
  induction 1 as [|y l Hy _ IH]; simpl; [done|].
  unfold key_le in Hy. unfold key_lt at 1.
  destruct (key x <? key y) eqn:Hxy; [lia|]. by rewrite IH.
Qed.

Lemma Sorted_snoc_inv l x :
  Sorted (key_le key) (l ++ [x]) →
  Sorted (key_le key) l ∧ Forall (λ y, key_le key y x) l.
Proof.
  intros Hs. apply Sorted_StronglySorted in Hs; [|apply _].
  apply StronglySorted_app in Hs as (Hall & Hl & _). split.
  - by apply StronglySorted_Sorted.
  - apply Forall_forall. intros y Hy. apply Hall; [done|]. set_solver.
Qed.

(** Stability: in a sorted list the element goes behind the elements whose
    key is not greater, and in front of those whose key is greater. *)
Lemma sort_insert_split x l :
  Sorted (key_le key) l →
  ∃ l1 l2, l = l1 ++ l2 ∧ sort_insert (key_lt key) x l = l1 ++ x :: l2 ∧
           Forall (λ y, key y ≤ key x) l1 ∧ Forall (λ y, key x < key y) l2.
Proof.
  intros Hs. apply Sorted_StronglySorted in Hs; [|apply _].
  induction Hs as [|y l Hs IH Hy]; cbn [sort_insert].
  - exists [], []. by repeat split.
  - unfold key_lt at 1. destruct (Z.ltb_spec (key x) (key y)) as [Hlt|Hge].
    + exists [], (y :: l). repeat split; [constructor|].
      constructor; [done|]. eapply Forall_impl; [exact Hy|].
      intros z Hz. unfold key_le in Hz. lia.
    + destruct IH as (l1 & l2 & -> & -> & H1 & H2).
      exists (y :: l1), l2. repeat split; [|done]. by constructor.
Qed.

(** Sorting a list that is sorted leaves it as it is. *)
Lemma list_sort_Sorted_id l : Sorted (key_le key) l → list_sort (key_lt key) l = l.
Proof.
  induction l as [|x l IH] using rev_ind; [done|].
  intros [Hl Hx]%Sorted_snoc_inv.
  by rewrite list_sort_snoc, IH, sort_insert_snoc.
Qed.

(** In a sorted list the elements between two elements of equal key
    have that key too. *)
Lemma Sorted_equal_keys_adjacent l1 x l2 y l3 :
  Sorted (key_le key) (l1 ++ x :: l2 ++ y :: l3) → key x = key y →
  Forall (λ z, key z = key x) l2.
Proof.
  intros Hs Hxy. apply Sorted_StronglySorted in Hs; [|apply _].
  apply StronglySorted_app in Hs as (_ & _ & Hs).
  apply StronglySorted_cons in Hs as [Hx Hs].
  apply StronglySorted_app in Hs as (Hall & _ & _).
  apply Forall_forall. intros z Hz.
  assert (key_le key x z) as H1.
  { rewrite Forall_forall in Hx. apply Hx. set_solver. }
  assert (key_le key z y) as H2 by (apply Hall; set_solver).
  unfold key_le in *. lia.
Qed.

End KeySortFacts.

(** ** Router *)

Module RouterFacts.
Import Router.

(** *** Examples *)

(** 10.0.0.3, 10.0.0.1, 10.0.0.3 again and 10.0.0.2: the second 10.0.0.3
    is kept, behind the first. *)
Example build_keeps_both :
  interfaces (build [(167772163, IP_ID_BASED); (167772161, UDP_PORT_UNREACHABLE);
                     (167772163, REVERSE_DNS); (167772162, GROUP_ECHO)])
  = [mkInterface 167772161 UDP_PORT_UNREACHABLE; mkInterface 167772162 GROUP_ECHO;
     mkInterface 167772163 IP_ID_BASED; mkInterface 167772163 REVERSE_DNS].
Proof. reflexivity. Qed.

Example toString_dotted :
  toString print_dotted
    (build [(167772163, IP_ID_BASED); (167772161, UDP_PORT_UNREACHABLE);
            (167772163, REVERSE_DNS); (167772162, GROUP_ECHO)])
  = "10.0.0.1 10.0.0.2 10.0.0.3 10.0.0.3"%string.
Proof. reflexivity. Qed.

Example toString_empty : toString print_dotted Router_new = ""%string.
Proof. reflexivity. Qed.

(** 10.0.0.1 is associated by UDP but its counter is random, 10.0.0.2 is
    healthy but associated by its IP-ID: the pivot is 10.0.0.4. *)
Example getMergingPivot_skips :
  getMergingPivot
    (build [(167772164, UDP_PORT_UNREACHABLE); (167772162, IP_ID_BASED);
            (167772161, UDP_PORT_UNREACHABLE); (167772163, UDP_PORT_UNREACHABLE)])
    (<[167772161 := mkEntry 167772161 3 RANDOM_COUNTER]>
       (<[167772162 := mkEntry 167772162 3 HEALTHY_COUNTER]>
          (<[167772164 := mkEntry 167772164 3 HEALTHY_COUNTER]> ∅)))
  = Some (mkEntry 167772164 3 HEALTHY_COUNTER).
Proof. reflexivity. Qed.

Example hasInterface_found :
  hasInterface (build [(167772163, IP_ID_BASED); (167772161, REVERSE_DNS)]) 167772161
  = true ∧
  hasInterface (build [(167772163, IP_ID_BASED); (167772161, REVERSE_DNS)]) 167772162
  = false.
Proof. split; reflexivity. Qed.

(** *** addInterface and build *)

Lemma length_addInterface r interface method :
  length (interfaces (addInterface r interface method)) = S (length (interfaces r)).
Proof. simpl. rewrite length_list_sort, length_app. simpl. lia. Qed.

Lemma addInterface_Permutation r interface method :
  interfaces (addInterface r interface method)
  ≡ₚ interfaces r ++ [mkInterface interface method].
Proof. simpl. apply list_sort_Permutation. Qed.

Lemma addInterface_Sorted r interface method :
  Sorted (key_le ip) (interfaces (addInterface r interface method)).
Proof. simpl. apply list_sort_Sorted. Qed.

(** On a Router that is sorted, addInterface places the new interface
    behind the interfaces whose ip is not greater. *)
Lemma addInterface_sort_insert r interface method :
  Sorted (key_le ip) (interfaces r) →
  interfaces (addInterface r interface method)
  = sort_insert RouterInterface_smaller (mkInterface interface method) (interfaces r).
Proof.
  intros Hs. simpl. rewrite list_sort_snoc.
  unfold RouterInterface_smaller. by rewrite list_sort_Sorted_id.
Qed.

Lemma build_snoc calls c :
  build (calls ++ [c]) = addInterface (build calls) c.1 c.2.
Proof. unfold build. by rewrite foldl_app. Qed.

Lemma length_build calls : length (interfaces (build calls)) = length calls.
Proof.
  induction calls as [|c calls IH] using rev_ind; [done|].
  rewrite build_snoc, length_addInterface, IH, length_app. simpl. lia.
Qed.

Lemma build_Sorted calls : Sorted (key_le ip) (interfaces (build calls)).
Proof.
  destruct calls as [|c calls _] using rev_ind; [constructor|].
  rewrite build_snoc. apply addInterface_Sorted.
Qed.

Lemma build_Permutation calls :
  interfaces (build calls) ≡ₚ (λ c, mkInterface c.1 c.2) <$> calls.
Proof.
  induction calls as [|c calls IH] using rev_ind; [done|].
  rewrite build_snoc, addInterface_Permutation, IH, fmap_app. done.
Qed.

Lemma getNbInterfaces_small r :
  Z.of_nat (length (interfaces r)) < USHORT_MOD →
  getNbInterfaces r = Z.of_nat (length (interfaces r)).
Proof.
  intros H. unfold getNbInterfaces. apply to_ushort_id.
  unfold is_ushort. lia.
Qed.

(** *** toString *)

Lemma string_app_assoc (a b c : string) :
  ((a ++ b) ++ c = a ++ (b ++ c))%string.
Proof.
  induction a as [|x a IH]; [done|].
  change (String x ((a ++ b) ++ c) = String x (a ++ (b ++ c)))%string.
  by f_equal.
Qed.

Lemma toString_loop_false print result it l :
  toString_loop print false (result ++ print (ip it))%string l
  = (result ++ String.concat " " (print <$> (ip <$> (it :: l))))%string.
Proof.
  revert result it. induction l as [|it' l IH]; intros result it; [done|].
  change (toString_loop print false (result ++ print (ip it))%string (it' :: l))
    with (toString_loop print false
            (((result ++ print (ip it)) ++ " ") ++ print (ip it'))%string l).
  rewrite IH.
  change (String.concat " " (print <$> (ip <$> it :: it' :: l)))
    with (print (ip it) ++ " " ++ String.concat " " (print <$> (ip <$> it' :: l)))%string.
  by rewrite !string_app_assoc.
Qed.

Lemma toString_concat print r :
  toString print r = String.concat " " (print <$> ips r).
Proof.
  unfold toString, ips. destruct (interfaces r) as [|it l]; [done|].
  change (toString_loop print true "" (it :: l))
    with (toString_loop print false ("" ++ print (ip it))%string l).
  by rewrite toString_loop_false.
Qed.

(** *** getMergingPivot *)

Lemma getMergingPivot_loop_spec l table :
  match getMergingPivot_loop l table with
  | Some entry =>
      ∃ pre i post,
        l = pre ++ i :: post ∧
        Forall (λ j, ¬ pivot_candidate table j) pre ∧
        aliasMethod i = UDP_PORT_UNREACHABLE ∧
        lookUp table (ip i) = Some entry ∧
        entry_counterType entry = HEALTHY_COUNTER
  | None => Forall (λ j, ¬ pivot_candidate table j) l
  end.
Proof.
  induction l as [|i l IH]; simpl; [constructor|].
  assert (¬ pivot_candidate table i →
          match getMergingPivot_loop l table with
          | Some entry =>
              ∃ pre i' post,
                i :: l = pre ++ i' :: post ∧
                Forall (λ j, ¬ pivot_candidate table j) pre ∧
                aliasMethod i' = UDP_PORT_UNREACHABLE ∧
                lookUp table (ip i') = Some entry ∧
                entry_counterType entry = HEALTHY_COUNTER
          | None => Forall (λ j, ¬ pivot_candidate table j) (i :: l)
          end) as Hskip.
  { intros Hi. destruct (getMergingPivot_loop l table) as [e|].
    - destruct IH as (pre & i' & post & -> & Hpre & Hm & He & Hc).
      exists (i :: pre), i', post. repeat split; try done. by constructor.
    - by constructor. }
  destruct (decide (aliasMethod i = UDP_PORT_UNREACHABLE)) as [Hm|Hm].
  - destruct (lookUp table (ip i)) as [e|] eqn:He.
    + destruct (decide (entry_counterType e = HEALTHY_COUNTER)) as [Hc|Hc].
      * exists [], i, l. repeat split; try done.
      * apply Hskip. intros (_ & e' & He' & Hc'). congruence.
    + apply Hskip. intros (_ & e' & He' & _). congruence.
  - apply Hskip. by intros [? _].
Qed.

(** *** The claims about Router *)

(** C4, as stated, fails: the constructor yields a Router that owns no
    interface, and one addInterface call with an alias method other than
    UDP_PORT_UNREACHABLE yields a Router with a single such interface.
    Neither satisfies the invariant of the specification. *)
Lemma Router_new_breaks_invariant :
  ¬ Router_invariant Router_new ∧
  ¬ Router_invariant (addInterface Router_new 167772161 IP_ID_BASED).
Proof.
  split.
  - intros [H | (i & H & _)]; simpl in H; [lia|done].
  - intros [H | (i & H & Hm)]; vm_compute in H; [lia|].
    injection H as <-. done.
Qed.

(** C4 (amended): the Router that the constructor yields owns no interface
    and does not satisfy the invariant.  Every addInterface call preserves
    the invariant on a Router that satisfies it; a Router reached from the
    constructor satisfies it once two or more interfaces were added, or
    after a single addInterface call whose alias method is
    UDP_PORT_UNREACHABLE. *)
Theorem Router_invariant_addInterface r interface method calls :
  ¬ Router_invariant Router_new ∧
  (Router_invariant r → Router_invariant (addInterface r interface method)) ∧
  ((2 ≤ length calls)%nat → Router_invariant (build calls)) ∧
  Router_invariant (addInterface Router_new interface UDP_PORT_UNREACHABLE).
Proof.
  split; [|split; [|split]].
  - intros [H | (i & H & _)]; simpl in H; [lia|done].
  - intros Hinv. left. rewrite length_addInterface.
    destruct Hinv as [H | (i & -> & _)]; simpl; lia.
  - intros Hlen. left. by rewrite length_build.
  - right. by eexists.
Qed.

Lemma Router_invariant_addInterface_witness :
  Router_invariant
    (addInterface (build [(167772161, UDP_PORT_UNREACHABLE)]) 167772162 IP_ID_BASED) ∧
  Router_invariant
    (build [(167772162, REVERSE_DNS); (167772161, REVERSE_DNS)]).
Proof.
  pose proof (Router_invariant_addInterface
                (build [(167772161, UDP_PORT_UNREACHABLE)]) 167772162 IP_ID_BASED
                [(167772162, REVERSE_DNS); (167772161, REVERSE_DNS)])
    as (_ & Hpres & Hbuild & _).
  split.
  - apply Hpres. right. by eexists.
  - apply Hbuild. simpl. lia.
Defined.

(** C5: getMergingPivot returns the table entry of the first interface, in
    the stored order, whose alias method is UDP_PORT_UNREACHABLE and whose
    entry in the table is classified HEALTHY_COUNTER: no interface in front
    of it is such a candidate.  It returns NULL exactly when the Router
    owns no such interface. *)
Theorem getMergingPivot_first_candidate r table :
  match getMergingPivot r table with
  | Some entry =>
      ∃ pre i post,
        interfaces r = pre ++ i :: post ∧
        Forall (λ j, ¬ pivot_candidate table j) pre ∧
        aliasMethod i = UDP_PORT_UNREACHABLE ∧
        lookUp table (ip i) = Some entry ∧
        entry_counterType entry = HEALTHY_COUNTER
  | None => Forall (λ j, ¬ pivot_candidate table j) (interfaces r)
  end.
Proof. apply getMergingPivot_loop_spec. Qed.

(** C6: for a Router built by addInterface calls, toString is the list of
    the interface ips, each printed once, in ascending ip order, with one
    space between two neighbours. *)
Theorem toString_ascending print calls :
  toString print (build calls)
  = String.concat " " (print <$> ips (build calls)) ∧
  Sorted Z.le (ips (build calls)) ∧
  ips (build calls) ≡ₚ calls.*1 ∧
  length (ips (build calls)) = length (interfaces (build calls)).
Proof.
  split; [apply toString_concat|]. unfold ips. split; [|split].
  - apply (Sorted_fmap ip (key_le ip) Z.le); [done|]. apply build_Sorted.
  - rewrite build_Permutation, <-list_fmap_compose. done.
  - apply length_fmap.
Qed.

(** C10, as stated, fails on getNbInterfaces: the size is returned as an
    unsigned short, so on a Router that owns 65535 interfaces the call
    makes the reported number fall to 0. *)
Lemma getNbInterfaces_wraps :
  getNbInterfaces (build (replicate (Z.to_nat 65535) (167772161, IP_ID_BASED)))
  = 65535 ∧
  getNbInterfaces
    (addInterface (build (replicate (Z.to_nat 65535) (167772161, IP_ID_BASED)))
                  167772161 IP_ID_BASED)
  ≠ getNbInterfaces (build (replicate (Z.to_nat 65535) (167772161, IP_ID_BASED))) + 1.
Proof.
  generalize (length_build (replicate (Z.to_nat 65535) (167772161, IP_ID_BASED))).
  rewrite length_replicate.
  generalize (build (replicate (Z.to_nat 65535) (167772161, IP_ID_BASED))).
  intros r Hlen. unfold getNbInterfaces.
  rewrite length_addInterface, Hlen, Nat2Z.inj_succ.
  rewrite Z2Nat.id by done.
  unfold to_ushort, USHORT_MOD. split; [reflexivity|].
  change (Z.succ 65535 mod 65536) with 0.
  change (65535 mod 65536) with 65535. done.
Qed.

(** C10 (amended): addInterface never merges or deduplicates.  Every call
    adds exactly one RouterInterface to the ones owned, whether or not the
    ip is owned already; the list grows by one, and getNbInterfaces grows
    by one as long as the new size fits an unsigned short.  The list is
    sorted after the call, so interfaces of identical ip are neighbours; in
    a Router that was sorted the owned interfaces keep their order and the
    new one stands behind those whose ip is not greater. *)
Theorem addInterface_appends r interface method :
  let r' := addInterface r interface method in
  interfaces r' ≡ₚ interfaces r ++ [mkInterface interface method] ∧
  length (interfaces r') = S (length (interfaces r)) ∧
  (Z.of_nat (length (interfaces r)) < 65535 →
   getNbInterfaces r' = getNbInterfaces r + 1) ∧
  Sorted (key_le ip) (interfaces r') ∧
  (∀ l1 x l2 y l3,
     interfaces r' = l1 ++ x :: l2 ++ y :: l3 → ip x = ip y →
     Forall (λ z, ip z = ip x) l2) ∧
  (Sorted (key_le ip) (interfaces r) →
   ∃ l1 l2,
     interfaces r = l1 ++ l2 ∧
     interfaces r' = l1 ++ mkInterface interface method :: l2 ∧
     Forall (λ z, ip z ≤ interface) l1 ∧ Forall (λ z, interface < ip z) l2).
Proof.
  intros r'. split; [apply addInterface_Permutation|].
  split; [apply length_addInterface|].
  split; [|split; [apply addInterface_Sorted|split]].
  - intros Hlt. rewrite !getNbInterfaces_small.
    + unfold r'. rewrite length_addInterface. lia.
    + unfold USHORT_MOD. lia.
    + unfold r', USHORT_MOD. rewrite length_addInterface. lia.
  - intros l1 x l2 y l3 Heq Hxy.
    apply (Sorted_equal_keys_adjacent ip l1 x l2 y l3); [|done].
    rewrite <-Heq. apply addInterface_Sorted.
  - intros Hs. unfold r'. rewrite addInterface_sort_insert by done.
    by apply (sort_insert_split ip (mkInterface interface method)).
Qed.

Lemma addInterface_appends_witness :
  getNbInterfaces
    (addInterface (build [(167772161, UDP_PORT_UNREACHABLE)])
                  167772161 IP_ID_BASED) = 2 ∧
  hasInterface (build [(167772161, UDP_PORT_UNREACHABLE)]) 167772161 = true.
Proof.
  pose proof (addInterface_appends
                (build [(167772161, UDP_PORT_UNREACHABLE)])
                167772161 IP_ID_BASED) as (_ & _ & Hnb & _).
  split; [|reflexivity].
  rewrite Hnb; [reflexivity|]. simpl. lia.
Defined.

(** *** Further properties of Router.cpp *)

Lemma hasInterface_loop_elem l a :
  hasInterface_loop l a = true ↔ a ∈ ip <$> l.
Proof.
  induction l as [|i l IH]; cbn [hasInterface_loop fmap list_fmap].
  - split; [done|]. by intros ?%elem_of_nil.
  - unfold InetAddress_eq. rewrite elem_of_cons.
    destruct (Z.eqb_spec (ip i) a) as [->|Hne]; [by split; [left|]|].
    rewrite IH. split; [by right|]. intros [->|H]; done.
Qed.

Lemma hasInterface_elem r a : hasInterface r a = true ↔ a ∈ ips r.
Proof. apply hasInterface_loop_elem. Qed.

(** X1: hasInterface finds an ip exactly when an addInterface call brought
    it: it answers true for the address just added, keeps its answer for
    all the others, and a Router built by addInterface calls has an ip if
    and only if one of the calls added it.  The Router of the constructor
    has none. *)
Theorem hasInterface_addInterface r a method b calls :
  (hasInterface (addInterface r a method) b = true
   ↔ a = b ∨ hasInterface r b = true) ∧
  hasInterface Router_new b = false ∧
  (hasInterface (build calls) b = true ↔ b ∈ calls.*1).
Proof.
  split; [|split; [done|]].
  - rewrite !hasInterface_elem. unfold ips.
    rewrite addInterface_Permutation, fmap_app, elem_of_app.
    cbn [fmap list_fmap ip]. rewrite list_elem_of_singleton.
    split; (intros [Hb|Hb]; [by right|by left]).
  - rewrite hasInterface_elem. unfold ips.
    by rewrite build_Permutation, <-list_fmap_compose.
Qed.

Lemma ips_build_unique calls1 calls2 :
  calls1.*1 ≡ₚ calls2.*1 → ips (build calls1) = ips (build calls2).
Proof.
  intros Hperm. unfold ips.
  apply (Sorted_unique Z.le).
  - apply (Sorted_fmap ip (key_le ip) Z.le); [done|]. apply build_Sorted.
  - apply (Sorted_fmap ip (key_le ip) Z.le); [done|]. apply build_Sorted.
  - rewrite !build_Permutation, <-!list_fmap_compose. exact Hperm.
Qed.

(** X2: what toString and getNbInterfaces return depends on the ips that
    were added only, not on the order of the addInterface calls nor on the
    alias methods given with them. *)
Theorem toString_order_independent print calls1 calls2 :
  calls1.*1 ≡ₚ calls2.*1 →
  toString print (build calls1) = toString print (build calls2) ∧
  getNbInterfaces (build calls1) = getNbInterfaces (build calls2).
Proof.
  intros Hperm. split.
  - by rewrite !toString_concat, (ips_build_unique calls1 calls2).
  - unfold getNbInterfaces. rewrite !length_build.
    by rewrite <-(length_fmap fst calls1), <-(length_fmap fst calls2), Hperm.
Qed.

Lemma toString_order_independent_witness :
  toString print_dotted
    (build [(167772163, IP_ID_BASED); (167772161, REVERSE_DNS)])
  = toString print_dotted
      (build [(167772161, UDP_PORT_UNREACHABLE); (167772163, GROUP_ECHO)]).
Proof.
  apply (toString_order_independent print_dotted
           [(167772163, IP_ID_BASED); (167772161, REVERSE_DNS)]
           [(167772161, UDP_PORT_UNREACHABLE); (167772163, GROUP_ECHO)]).
  apply Permutation_swap.
Defined.

(** In a sorted list the interface that getMergingPivot stops at has the
    least ip among the candidates. *)
Lemma getMergingPivot_loop_least l table entry :
  Sorted (key_le ip) l →
  getMergingPivot_loop l table = Some entry →
  ∃ i, i ∈ l ∧ pivot_candidate table i ∧ lookUp table (ip i) = Some entry ∧
       ∀ j, j ∈ l → pivot_candidate table j → ip i ≤ ip j.
Proof.
  intros Hs Hpivot. pose proof (getMergingPivot_loop_spec l table) as Hspec.
  rewrite Hpivot in Hspec.
  destruct Hspec as (pre & i & post & -> & Hpre & Hm & He & Hc).
  exists i. split; [set_solver|]. split; [by split; eauto|]. split; [done|].
  intros j Hj Hcand. apply Sorted_StronglySorted in Hs; [|apply _].
  apply StronglySorted_app in Hs as (_ & _ & Hs).
  apply StronglySorted_cons in Hs as [Hi _].
  apply elem_of_app in Hj as [Hj|Hj].
  - rewrite Forall_forall in Hpre. by destruct (Hpre j Hj).
  - apply elem_of_cons in Hj as [->|Hj]; [done|].
    rewrite Forall_forall in Hi. by apply Hi.
Qed.

Lemma getMergingPivot_loop_None l table :
  getMergingPivot_loop l table = None →
  ∀ j, j ∈ l → ¬ pivot_candidate table j.
Proof.
  intros Hpivot. pose proof (getMergingPivot_loop_spec l table) as Hspec.
  rewrite Hpivot in Hspec. by rewrite Forall_forall in Hspec.
Qed.

(** X3: in a Router built by addInterface calls the merging pivot is the
    entry of a candidate (alias method UDP_PORT_UNREACHABLE, entry
    classified HEALTHY_COUNTER) that the Router owns and whose ip is the
    least among the candidates. *)
Theorem getMergingPivot_least_ip calls table entry :
  getMergingPivot (build calls) table = Some entry →
  ∃ i, i ∈ interfaces (build calls) ∧
       hasInterface (build calls) (ip i) = true ∧
       pivot_candidate table i ∧ lookUp table (ip i) = Some entry ∧
       ∀ j, j ∈ interfaces (build calls) → pivot_candidate table j →
            ip i ≤ ip j.
Proof.
  intros Hpivot.
  destruct (getMergingPivot_loop_least _ _ _ (build_Sorted calls) Hpivot)
    as (i & Hin & Hcand & He & Hleast).
  exists i. split; [done|]. split; [|done].
  apply hasInterface_elem. unfold ips. by apply list_elem_of_fmap_2.
Qed.

Lemma getMergingPivot_least_ip_witness :
  ∃ i, ip i = 167772164 ∧
       pivot_candidate
         (<[167772161 := mkEntry 167772161 3 RANDOM_COUNTER]>
            (<[167772164 := mkEntry 167772164 3 HEALTHY_COUNTER]> ∅)) i.
Proof.
  destruct (getMergingPivot_least_ip
              [(167772164, UDP_PORT_UNREACHABLE); (167772161, UDP_PORT_UNREACHABLE)]
              (<[167772161 := mkEntry 167772161 3 RANDOM_COUNTER]>
                 (<[167772164 := mkEntry 167772164 3 HEALTHY_COUNTER]> ∅))
              (mkEntry 167772164 3 HEALTHY_COUNTER))
    as (i & Hin & _ & Hcand & _); [reflexivity|].
  exists i. split; [|done].
  vm_compute in Hin.
  apply elem_of_cons in Hin as [->|Hin].
  - exfalso. destruct Hcand as (_ & e & He & Hc). vm_compute in He.
    injection He as <-. discriminate Hc.
  - apply list_elem_of_singleton in Hin as ->. reflexivity.
Defined.

(** X4: the merging pivot does not depend on the order of the addInterface
    calls. *)
Theorem getMergingPivot_order_independent calls1 calls2 table :
  calls1 ≡ₚ calls2 →
  getMergingPivot (build calls1) table = getMergingPivot (build calls2) table.
Proof.
  intros Hperm.
  assert (interfaces (build calls1) ≡ₚ interfaces (build calls2)) as Hp.
  { by rewrite !build_Permutation, Hperm. }
  unfold getMergingPivot.
  destruct (getMergingPivot_loop (interfaces (build calls1)) table) as [e1|] eqn:H1;
    destruct (getMergingPivot_loop (interfaces (build calls2)) table) as [e2|] eqn:H2;
    [|exfalso..|done].
  - destruct (getMergingPivot_loop_least _ _ _ (build_Sorted calls1) H1)
      as (i1 & Hin1 & Hc1 & He1 & Hl1).
    destruct (getMergingPivot_loop_least _ _ _ (build_Sorted calls2) H2)
      as (i2 & Hin2 & Hc2 & He2 & Hl2).
    assert (ip i1 = ip i2) as Heq.
    { apply Z.le_antisymm.
      - apply Hl1; [by rewrite Hp|done].
      - apply Hl2; [by rewrite <-Hp|done]. }
    rewrite Heq in He1. congruence.
  - destruct (getMergingPivot_loop_least _ _ _ (build_Sorted calls1) H1)
      as (i1 & Hin1 & Hc1 & _).
    apply (getMergingPivot_loop_None _ _ H2 i1); [by rewrite <-Hp|done].
  - destruct (getMergingPivot_loop_least _ _ _ (build_Sorted calls2) H2)
      as (i2 & Hin2 & Hc2 & _).
    apply (getMergingPivot_loop_None _ _ H1 i2); [by rewrite Hp|done].
Qed.

Lemma getMergingPivot_order_independent_witness :
  getMergingPivot
    (build [(167772164, UDP_PORT_UNREACHABLE); (167772161, UDP_PORT_UNREACHABLE)])
    (<[167772164 := mkEntry 167772164 3 HEALTHY_COUNTER]> ∅)
  = getMergingPivot
      (build [(167772161, UDP_PORT_UNREACHABLE); (167772164, UDP_PORT_UNREACHABLE)])
      (<[167772164 := mkEntry 167772164 3 HEALTHY_COUNTER]> ∅).
Proof.
  apply (getMergingPivot_order_independent
           [(167772164, UDP_PORT_UNREACHABLE); (167772161, UDP_PORT_UNREACHABLE)]
           [(167772161, UDP_PORT_UNREACHABLE); (167772164, UDP_PORT_UNREACHABLE)]).
  apply Permutation_swap.
Defined.

Lemma getMergingPivot_loop_app l1 l2 table :
  getMergingPivot_loop (l1 ++ l2) table
  = match getMergingPivot_loop l1 table with
    | Some entry => Some entry
    | None => getMergingPivot_loop l2 table
    end.
Proof.
  induction l1 as [|i l1 IH]; [done|]. cbn [app getMergingPivot_loop].
  destruct (decide (aliasMethod i = UDP_PORT_UNREACHABLE)); [|done].
  destruct (lookUp table (ip i)) as [e'|]; [|done].
  by destruct (decide (entry_counterType e' = HEALTHY_COUNTER)).
Qed.

Lemma getMergingPivot_loop_skip i l table :
  ¬ pivot_candidate table i →
  getMergingPivot_loop (i :: l) table = getMergingPivot_loop l table.
Proof.
  intros Hno. cbn [getMergingPivot_loop].
  destruct (decide (aliasMethod i = UDP_PORT_UNREACHABLE)) as [Hm|]; [|done].
  destruct (lookUp table (ip i)) as [e'|] eqn:He; [|done].
  destruct (decide (entry_counterType e' = HEALTHY_COUNTER)) as [Hc|]; [|done].
  destruct Hno. split; eauto.
Qed.

(** X5: adding an interface that is no candidate (another alias method, no
    entry in the table, or an entry that is not HEALTHY_COUNTER) leaves the
    merging pivot of a Router built by addInterface calls as it was; and
    whatever is added, a Router that had a pivot still has one. *)
Theorem getMergingPivot_addInterface calls a method table :
  (¬ pivot_candidate table (mkInterface a method) →
   getMergingPivot (addInterface (build calls) a method) table
   = getMergingPivot (build calls) table) ∧
  (is_Some (getMergingPivot (build calls) table) →
   is_Some (getMergingPivot (addInterface (build calls) a method) table)).
Proof.
  pose proof (build_Sorted calls) as Hs.
  destruct (sort_insert_split ip (mkInterface a method) _ Hs)
    as (l1 & l2 & Hl & Hins & _).
  unfold getMergingPivot.
  rewrite (addInterface_sort_insert _ _ _ Hs).
  unfold RouterInterface_smaller. rewrite Hins, Hl.
  rewrite !getMergingPivot_loop_app. split.
  - intros Hno. by rewrite getMergingPivot_loop_skip.
  - destruct (getMergingPivot_loop l1 table); [done|].
    intros [e0 He]. cbn [getMergingPivot_loop].
    destruct (decide (aliasMethod (mkInterface a method) = UDP_PORT_UNREACHABLE));
      [|by rewrite He].
    destruct (lookUp table (ip (mkInterface a method))) as [e'|]; [|by rewrite He].
    destruct (decide (entry_counterType e' = HEALTHY_COUNTER)); [done|by rewrite He].
Qed.

Lemma getMergingPivot_addInterface_witness :
  getMergingPivot
    (addInterface (build [(167772164, UDP_PORT_UNREACHABLE)]) 167772161 REVERSE_DNS)
    (<[167772164 := mkEntry 167772164 3 HEALTHY_COUNTER]> ∅)
  = Some (mkEntry 167772164 3 HEALTHY_COUNTER).
Proof.
  destruct (getMergingPivot_addInterface [(167772164, UDP_PORT_UNREACHABLE)]
              167772161 REVERSE_DNS
              (<[167772164 := mkEntry 167772164 3 HEALTHY_COUNTER]> ∅))
    as [Hkeep _].
  rewrite Hkeep; [reflexivity|]. by intros [[=] _].
Defined.

End RouterFacts.

(** ** AliasHintCollector *)

Module AliasHintCollectorFacts.
Import AliasHintCollector.

(** *** Examples *)

Example getProbeToken_first :
  getProbeToken (AliasHintCollector_new 5) = (1, mkCollector [] 5 2).
Proof. reflexivity. Qed.

(** Duplicates go, new entries get the current TTL, and so does the address
    0.0.0.0 go: the loop starts with [previous] at 0. *)
Example preprocessing_sample :
  sort_and_preprocess (mkCollector [5; 0; 3; 5; 0; 3] 7 1)
    (<[5 := mkEntry 5 2 HEALTHY_COUNTER]> ∅)
  = ([3; 5],
     <[3 := mkEntry 3 7 UNKNOWN_COUNTER]> (<[5 := mkEntry 5 2 HEALTHY_COUNTER]> ∅)).
Proof. by vm_compute. Qed.

(** Three addresses, room for two collectors and for four units. *)
Example collect_sample :
  out_trace <$>
    collect (mkEnv 4 1) (mkPorts 39000 64000 33434 33534)
      (mkCollector [167772163; 167772161; 167772163; 167772162] 5 1) ∅
  = Some
      [Start 0 (IPIDCollector 167772161 0);
       Start 1 (IPIDCollector 167772162 1);
       Join 0 (IPIDCollector 167772161 0);
       Start 0 (IPIDCollector 167772163 0);
       Join 0 (IPIDCollector 167772163 0);
       Join 1 (IPIDCollector 167772162 1);
       Start 0 (UDPUnreachablePortUnit 167772161 39000 45249 33434 33534);
       Start 1 (UDPUnreachablePortUnit 167772162 45250 51499 33434 33534);
       Start 2 (UDPUnreachablePortUnit 167772163 51500 57749 33434 33534);
       Join 0 (UDPUnreachablePortUnit 167772161 39000 45249 33434 33534);
       Join 1 (UDPUnreachablePortUnit 167772162 45250 51499 33434 33534);
       Join 2 (UDPUnreachablePortUnit 167772163 51500 57749 33434 33534);
       Start 0 (TimestampCheckUnit 167772161 39000 45249 33434 33534);
       Start 1 (TimestampCheckUnit 167772162 45250 51499 33434 33534);
       Start 2 (TimestampCheckUnit 167772163 51500 57749 33434 33534);
       Join 0 (TimestampCheckUnit 167772161 39000 45249 33434 33534);
       Join 1 (TimestampCheckUnit 167772162 45250 51499 33434 33534);
       Join 2 (TimestampCheckUnit 167772163 51500 57749 33434 33534);
       Start 0 (ReverseDNSUnit 167772161);
       Start 1 (ReverseDNSUnit 167772162);
       Start 2 (ReverseDNSUnit 167772163);
       Join 0 (ReverseDNSUnit 167772161);
       Join 1 (ReverseDNSUnit 167772162);
       Join 2 (ReverseDNSUnit 167772163)].
Proof. by vm_compute. Qed.

(** An execution of two workers: each writes while it runs. *)
Example interleaving_sample :
  interleaving
    [Orchestrator (Start 0 (IPIDCollector 167772161 0));
     Write 0 (IPIDCollector 167772161 0);
     Orchestrator (Start 1 (IPIDCollector 167772162 1));
     Orchestrator (Join 0 (IPIDCollector 167772161 0));
     Write 1 (IPIDCollector 167772162 1);
     Orchestrator (Join 1 (IPIDCollector 167772162 1))]
    [Start 0 (IPIDCollector 167772161 0); Start 1 (IPIDCollector 167772162 1);
     Join 0 (IPIDCollector 167772161 0); Join 1 (IPIDCollector 167772162 1)].
Proof.
  split; [reflexivity|]. intros e1 j u e2 Heq.
  destruct e1 as [|s0 [|s1 [|s2 [|s3 [|s4 [|s5 e1]]]]]]; simplify_eq/=.
  - exists [], []. split; [done|]. by intros ?%elem_of_nil.
  - exists [Orchestrator (Start 0 (IPIDCollector 167772161 0));
            Write 0 (IPIDCollector 167772161 0)],
           [Orchestrator (Join 0 (IPIDCollector 167772161 0))].
    split; [done|]. intros [=]%list_elem_of_singleton.
  - by destruct e1.
Qed.

(** An empty list: nothing is started, whatever the environment. *)
Example collect_nothing :
  out_trace <$> collect (mkEnv 0 4) (mkPorts 39000 64000 33434 33534)
                  (mkCollector [] 5 1) ∅
  = Some [].
Proof. by vm_compute. Qed.

(** *** Probe tokens *)

Lemma getProbeTokens_from n c :
  0 ≤ tokenCounter c → tokenCounter c + Z.of_nat n ≤ ULONG_MOD →
  (getProbeTokens n c).1 = (λ k, tokenCounter c + Z.of_nat k) <$> seq 0 n.
Proof.
  revert c. induction n as [|n IH]; intros c Hlo Hhi; [done|].
  cbn [getProbeTokens]. unfold getProbeToken.
  destruct (getProbeTokens n _) as [tokens c2] eqn:Hrec.
  cbn [fst]. rewrite <-cons_seq, fmap_cons, <-fmap_S_seq, <-list_fmap_compose.
  replace (tokenCounter c + Z.of_nat 0) with (tokenCounter c) by lia.
  apply (f_equal (cons (tokenCounter c))).
  assert (tokens = (getProbeTokens n
     (mkCollector (IPsToProbe c) (currentTTL c) (to_ulong (tokenCounter c + 1)))).1)
    as -> by (by rewrite Hrec).
  destruct n as [|n]; [done|].
  assert (to_ulong (tokenCounter c + 1) = tokenCounter c + 1) as Hid
    by (apply to_ulong_id; unfold is_ulong; lia).
  rewrite IH; cbn [tokenCounter]; rewrite Hid; [|lia..].
  apply list_fmap_ext. intros _ k _. cbn. lia.
Qed.

(** The token returned by call number [k + 1], whatever the number of
    calls: the counter wraps around. *)
Lemma getProbeTokens_lookup n c k :
  (k < n)%nat → is_ulong (tokenCounter c) →
  (getProbeTokens n c).1 !! k = Some (to_ulong (tokenCounter c + Z.of_nat k)).
Proof.
  revert c k. induction n as [|n IH]; intros c k Hk Hc; [lia|].
  cbn [getProbeTokens]. unfold getProbeToken.
  destruct (getProbeTokens n _) as [tokens c2] eqn:Hrec.
  cbn [fst]. rewrite lookup_cons. destruct k as [|k].
  - rewrite to_ulong_id; [do 2 f_equal; lia|].
    unfold is_ulong in *. lia.
  - assert (tokens = (getProbeTokens n
       (mkCollector (IPsToProbe c) (currentTTL c) (to_ulong (tokenCounter c + 1)))).1)
      as -> by (by rewrite Hrec).
    rewrite IH; cbn [tokenCounter]; [|lia|].
    + unfold to_ulong. rewrite Zplus_mod_idemp_l. do 2 f_equal. lia.
    + unfold is_ulong, to_ulong, ULONG_MOD. by apply Z.mod_pos_bound.
Qed.

Lemma Sorted_lt_seq j n : Sorted lt (seq j n).
Proof.
  revert j. induction n as [|n IH]; intros j; [constructor|].
  cbn [seq]. constructor; [apply IH|].
  destruct n; constructor. lia.
Qed.

(** When the counter has gone through all the values of its type, the next
    token is 0. *)
Lemma getProbeTokens_wrap_at n k :
  Z.of_nat k = ULONG_MOD - 1 → (k < n)%nat →
  (getProbeTokens n (AliasHintCollector_new 0)).1 !! k = Some 0 ∧
  (getProbeTokens n (AliasHintCollector_new 0)).1 ≠ Z.of_nat <$> seq 1 n.
Proof.
  intros Hk Hlt.
  assert ((getProbeTokens n (AliasHintCollector_new 0)).1 !! k = Some 0) as Hlast.
  { rewrite getProbeTokens_lookup; [|done|].
    - cbn [AliasHintCollector_new tokenCounter]. rewrite Hk.
      replace (1 + (ULONG_MOD - 1)) with ULONG_MOD by lia.
      unfold to_ulong. by rewrite Z_mod_same_full.
    - cbn [AliasHintCollector_new tokenCounter]. by unfold is_ulong. }
  split; [exact Hlast|]. intros Heq. rewrite Heq in Hlast.
  rewrite list_lookup_fmap, lookup_seq_lt in Hlast by done.
  injection Hlast as Hlast. lia.
Qed.

(** C3, as stated, fails for a run that is long enough: the counter is an
    unsigned long int, so the call number 2^64 returns 0 and not 2^64. *)
Lemma getProbeToken_wraps :
  (getProbeTokens (Z.to_nat ULONG_MOD) (AliasHintCollector_new 0)).1
    !! Z.to_nat (ULONG_MOD - 1) = Some 0 ∧
  (getProbeTokens (Z.to_nat ULONG_MOD) (AliasHintCollector_new 0)).1
  ≠ Z.of_nat <$> seq 1 (Z.to_nat ULONG_MOD).
Proof.
  apply getProbeTokens_wrap_at.
  - apply Z2Nat.id. discriminate.
  - apply Z2Nat.inj_lt; [discriminate|discriminate|reflexivity].
Qed.

(** C3 (amended): as long as the number [n] of calls made since the
    construction is below 2^64, the tokens returned are 1, 2, ..., n in
    this order: contiguous from 1, strictly increasing, none returned
    twice. *)
Theorem getProbeToken_sequence ttl n :
  Z.of_nat n < ULONG_MOD →
  (getProbeTokens n (AliasHintCollector_new ttl)).1 = Z.of_nat <$> seq 1 n ∧
  Sorted Z.lt (getProbeTokens n (AliasHintCollector_new ttl)).1 ∧
  NoDup (getProbeTokens n (AliasHintCollector_new ttl)).1.
Proof.
  intros Hn.
  assert ((getProbeTokens n (AliasHintCollector_new ttl)).1
          = Z.of_nat <$> seq 1 n) as ->.
  { rewrite getProbeTokens_from; cbn [AliasHintCollector_new tokenCounter];
      [|lia..].
    rewrite <-fmap_S_seq, <-list_fmap_compose.
    apply list_fmap_ext. intros _ k _. cbn [compose]. lia. }
  split; [done|]. split.
  - apply (Sorted_fmap Z.of_nat lt Z.lt); [lia|]. apply Sorted_lt_seq.
  - apply NoDup_fmap_2; [apply Nat2Z.inj'|]. apply NoDup_seq.
Qed.

Lemma getProbeToken_sequence_witness :
  (getProbeTokens 4 (AliasHintCollector_new 7)).1 = [1; 2; 3; 4].
Proof.
  pose proof (getProbeToken_sequence 7 4) as H.
  destruct H as [H _]; [reflexivity|]. exact H.
Defined.

(** *** The preprocessing loop *)

(** One step of [preprocess] on a non-empty list, as two cases. *)
Lemma preprocess_cons ttl previous current rest table kept table2 :
  preprocess ttl previous (current :: rest) table = (kept, table2) →
  (current = previous ∧ preprocess ttl current rest table = (kept, table2)) ∨
  (current ≠ previous ∧
   ∃ kept1,
     kept = current :: kept1 ∧
     preprocess ttl current rest
       (match lookUp table current with
        | None => <[current := setTTL (new_entry current) ttl]> table
        | Some _ => table
        end) = (kept1, table2)).
Proof.
  cbn [preprocess]. unfold InetAddress_eq.
  destruct (Z.eqb_spec current previous) as [Heq|Hne]; [by left|].
  destruct (preprocess ttl current rest _) as [kept1 t] eqn:Hrec.
  intros [= <- <-]. right. eauto.
Qed.

Lemma preprocess_table_mono ttl previous l table kept table2 :
  preprocess ttl previous l table = (kept, table2) →
  ∀ a e, table !! a = Some e → table2 !! a = Some e.
Proof.
  revert previous table kept.
  induction l as [|current rest IH]; intros previous table kept Hrun a e Ha.
  - by injection Hrun as <- <-.
  - apply preprocess_cons in Hrun as [[_ Hrun] | (_ & kept1 & _ & Hrun)].
    + by eapply IH.
    + eapply IH; [exact Hrun|]. unfold lookUp.
      destruct (table !! current) eqn:Hcur; [done|].
      rewrite lookup_insert_ne; [done|]. congruence.
Qed.

Lemma preprocess_kept_in_table ttl previous l table kept table2 :
  preprocess ttl previous l table = (kept, table2) →
  ∀ a, a ∈ kept → is_Some (table2 !! a).
Proof.
  revert previous table kept.
  induction l as [|current rest IH]; intros previous table kept Hrun a Ha.
  - injection Hrun as <- <-. by apply elem_of_nil in Ha.
  - apply preprocess_cons in Hrun as [[_ Hrun] | (_ & kept1 & -> & Hrun)].
    + by eapply IH.
    + apply elem_of_cons in Ha as [->|Ha]; [|by eapply IH].
      unfold lookUp in Hrun.
      destruct (table !! current) as [e|] eqn:Hcur.
      * exists e. by eapply preprocess_table_mono.
      * eexists. eapply preprocess_table_mono; [exact Hrun|].
        apply lookup_insert_eq.
Qed.

Lemma preprocess_new_entries ttl previous l table kept table2 :
  preprocess ttl previous l table = (kept, table2) →
  ∀ a e, table !! a = None → table2 !! a = Some e →
         a ∈ kept ∧ e = setTTL (new_entry a) ttl.
Proof.
  revert previous table kept.
  induction l as [|current rest IH]; intros previous table kept Hrun a e Ha He.
  - injection Hrun as <- <-. congruence.
  - apply preprocess_cons in Hrun as [[_ Hrun] | (_ & kept1 & -> & Hrun)].
    + by eapply IH.
    + unfold lookUp in Hrun. destruct (decide (a = current)) as [->|Hne].
      * rewrite Ha in Hrun. split; [by left|].
        pose proof (preprocess_table_mono _ _ _ _ _ _ Hrun current
                      (setTTL (new_entry current) ttl)) as Hmono.
        rewrite Hmono in He by apply lookup_insert_eq. congruence.
      * destruct (IH _ _ _ Hrun a e) as [Hin Hnew]; [|done|].
        { destruct (table !! current); [done|]. by rewrite lookup_insert_ne. }
        split; [by right|done].
Qed.

(** On a sorted list whose elements are not below [previous], the kept
    elements are strictly ascending and strictly above [previous]. *)
Lemma preprocess_ascending ttl previous l table kept table2 :
  Sorted Z.le l → Forall (Z.le previous) l →
  preprocess ttl previous l table = (kept, table2) →
  Sorted Z.lt kept ∧ Forall (Z.lt previous) kept.
Proof.
  revert previous table kept.
  induction l as [|current rest IH]; intros previous table kept Hs Hall Hrun.
  - injection Hrun as <- <-. split; constructor.
  - apply Sorted_StronglySorted in Hs; [|apply _].
    apply StronglySorted_cons in Hs as [Hcur Hs].
    apply StronglySorted_Sorted in Hs.
    apply Forall_cons in Hall as [Hprev _].
    apply preprocess_cons in Hrun as [[-> Hrun] | (Hne & kept1 & -> & Hrun)].
    + by eapply IH.
    + destruct (IH _ _ _ Hs Hcur Hrun) as [Hs1 Hall1]. split.
      * constructor; [done|]. destruct Hall1; by constructor.
      * constructor; [lia|]. eapply Forall_impl; [exact Hall1|].
        intros x Hx. simpl in Hx. lia.
Qed.

(** Without a bound on [previous]: the first element is only compared with
    it for equality. *)
Lemma preprocess_Sorted ttl previous l table kept table2 :
  Sorted Z.le l →
  preprocess ttl previous l table = (kept, table2) → Sorted Z.lt kept.
Proof.
  intros Hs Hrun. destruct l as [|current rest].
  - injection Hrun as <- <-. constructor.
  - apply Sorted_StronglySorted in Hs; [|apply _].
    apply StronglySorted_cons in Hs as [Hcur Hs].
    apply StronglySorted_Sorted in Hs.
    apply preprocess_cons in Hrun as [[_ Hrun] | (_ & kept1 & -> & Hrun)].
    + by eapply preprocess_ascending.
    + destruct (preprocess_ascending _ _ _ _ _ _ Hs Hcur Hrun) as [Hs1 Hall1].
      constructor; [done|]. destruct Hall1; by constructor.
Qed.

Lemma Sorted_lt_NoDup (l : list Z) : Sorted Z.lt l → NoDup l.
Proof.
  intros Hs. apply Sorted_StronglySorted in Hs; [|apply _].
  induction Hs as [|x l _ IH Hx]; constructor; [|done].
  intros Hin. rewrite Forall_forall in Hx. specialize (Hx _ Hin). lia.
Qed.

Lemma InetAddress_sort_Sorted l :
  Sorted Z.le (list_sort InetAddress_smaller l).
Proof. apply (list_sort_Sorted (λ a : InetAddress, a)). Qed.

(** The loop takes out nothing but an element equal to the one in front of
    it (or to [previous], for the first), and it adds nothing. *)
Lemma preprocess_retains ttl previous l table kept table2 :
  preprocess ttl previous l table = (kept, table2) →
  ∀ a, (a ∈ kept → a ∈ l) ∧ (a ∈ l → a ≠ previous → a ∈ kept).
Proof.
  revert previous table kept.
  induction l as [|current rest IH]; intros previous table kept Hpre a.
  { injection Hpre as <- _. split; [done|]. by intros ?%elem_of_nil. }
  apply preprocess_cons in Hpre as [[-> Hpre]|(Hne & kept1 & -> & Hpre)];
    destruct (IH _ _ _ Hpre a) as [Hin Hkeep].
  - split; [by right; apply Hin|].
    intros [->|Ha]%elem_of_cons Hne; [done|by apply Hkeep].
  - split.
    + intros [->|Ha]%elem_of_cons; [by left|by right; apply Hin].
    + intros [->|Ha]%elem_of_cons _; [by left|].
      destruct (decide (a = current)) as [->|Hne']; [by left|].
      right. by apply Hkeep.
Qed.

(** C2: after the sort and the loop of lines 38 to 58, whatever the list
    held, it is in ascending order without two equal addresses; it holds
    addresses of the initial list only, and every address of the initial
    list other than 0.0.0.0 (the value that the loop compares the first
    address with, so that with addresses in the range of their unsigned
    type 0.0.0.0 is not left); every address left in it has an entry in
    the IP table,
    so that an address of the initial list other than 0.0.0.0 that had no
    entry has got one; an entry that the loop created belongs to an address
    of the list and carries the current TTL, and the entries that were
    there are left as they were. *)
Theorem collect_preprocessing c table :
  let kept := (sort_and_preprocess c table).1 in
  let table2 := (sort_and_preprocess c table).2 in
  Sorted Z.lt kept ∧
  NoDup kept ∧
  (∀ a, a ∈ kept → a ∈ IPsToProbe c) ∧
  (∀ a, a ∈ IPsToProbe c → a ≠ 0 → a ∈ kept) ∧
  (Forall (Z.le 0) (IPsToProbe c) → 0 ∉ kept) ∧
  (∀ a, a ∈ kept → is_Some (lookUp table2 a)) ∧
  (∀ a, a ∈ IPsToProbe c → a ≠ 0 → lookUp table a = None →
        ∃ e, lookUp table2 a = Some e ∧
             entry_TTL e = currentTTL c ∧ entry_ip e = a) ∧
  (∀ a e, lookUp table a = None → lookUp table2 a = Some e →
          a ∈ kept ∧ entry_TTL e = currentTTL c ∧ entry_ip e = a) ∧
  (∀ a e, lookUp table a = Some e → lookUp table2 a = Some e).
Proof.
  intros kept table2. subst kept table2. unfold sort_and_preprocess, lookUp.
  destruct (preprocess _ _ _ _) as [kept table2] eqn:Hrun. cbn [fst snd].
  assert (Sorted Z.lt kept) as Hs.
  { eapply preprocess_Sorted; [|exact Hrun]. apply InetAddress_sort_Sorted. }
  assert (∀ a, a ∈ IPsToProbe c → a ≠ 0 → a ∈ kept) as Hkeep.
  { intros a Ha Hne. apply (preprocess_retains _ _ _ _ _ _ Hrun a); [|done].
    by rewrite list_sort_Permutation. }
  assert (∀ a e, table !! a = None → table2 !! a = Some e →
            a ∈ kept ∧ entry_TTL e = currentTTL c ∧ entry_ip e = a) as Hnew.
  { intros a e Ha He.
    destruct (preprocess_new_entries _ _ _ _ _ _ Hrun a e Ha He) as [Hin ->].
    done. }
  split; [done|]. split; [by apply Sorted_lt_NoDup|].
  split; [|split; [done|split; [|split; [|split; [|split; [done|]]]]]].
  - intros a Ha. apply (preprocess_retains _ _ _ _ _ _ Hrun a) in Ha.
    by rewrite list_sort_Permutation in Ha.
  - intros Hpos Hzero.
    assert (Forall (Z.le 0) (list_sort InetAddress_smaller (IPsToProbe c)))
      as Hall by (by rewrite list_sort_Permutation).
    destruct (preprocess_ascending _ _ _ _ _ _ (InetAddress_sort_Sorted _) Hall Hrun)
      as [_ Hgt].
    rewrite Forall_forall in Hgt. specialize (Hgt 0 Hzero). lia.
  - by eapply preprocess_kept_in_table.
  - intros a Ha Hne Hnone.
    destruct (preprocess_kept_in_table _ _ _ _ _ _ Hrun a (Hkeep a Ha Hne))
      as [e He].
    exists e. split; [done|]. by destruct (Hnew a e Hnone He).
  - by eapply preprocess_table_mono.
Qed.

(** *** The scheduling loops stay inside of the array *)

Lemma dispatch_Some th j u :
  0 ≤ j → (Z.to_nat j < length th)%nat →
  ∃ joined,
    dispatch th j u = Some (<[Z.to_nat j := Some u]> th, joined ++ [Start j u]) ∧
    (joined = [] ∧ th !! Z.to_nat j = Some None ∨
     ∃ old, joined = [Join j old] ∧ th !! Z.to_nat j = Some (Some old)).
Proof.
  intros Hj Hlt. unfold dispatch.
  destruct (lookup_lt_is_Some_2 th (Z.to_nat j) Hlt) as [slot Hslot].
  rewrite Hslot. destruct slot as [old|]; eexists; (split; [done|]); eauto.
Qed.

Lemma dispatch_inv th j u th1 events1 :
  dispatch th j u = Some (th1, events1) →
  (Z.to_nat j < length th)%nat ∧ th1 = <[Z.to_nat j := Some u]> th ∧
  (events1 = [Start j u] ∧ th !! Z.to_nat j = Some None ∨
   ∃ old, events1 = [Join j old; Start j u] ∧ th !! Z.to_nat j = Some (Some old)).
Proof.
  unfold dispatch. destruct (th !! Z.to_nat j) as [slot|] eqn:Hslot; [|done].
  intros [= <- <-]. split; [by eapply lookup_lt_Some|]. split; [done|].
  destruct slot as [old|]; eauto.
Qed.

(** One iteration of [schedule], seen from its result. *)
Lemma schedule_cons_inv mk limit ip rest j th th2 events :
  schedule mk limit (ip :: rest) j th = Some (th2, events) →
  ∃ th1 events1 events2,
    dispatch th j (mk j ip) = Some (th1, events1) ∧
    schedule mk limit rest
      (if to_ushort (j + 1) =? limit then 0 else to_ushort (j + 1)) th1
    = Some (th2, events2) ∧
    events = events1 ++ events2.
Proof.
  cbn [schedule]. destruct (dispatch th j (mk j ip)) as [[th1 events1]|]; [|done].
  destruct (schedule mk limit rest _ th1) as [[th2' events2]|] eqn:Hrest; [|done].
  intros [= <- <-]. by exists th1, events1, events2.
Qed.

Lemma schedule_defined mk limit ips j th :
  in_bounds limit ips j th →
  ∃ th2 events, schedule mk limit ips j th = Some (th2, events) ∧
                length th2 = length th.
Proof.
  revert j th. induction ips as [|ip rest IH]; intros j th (Hj & Hlim & Hcase).
  - by exists th, [].
  - cbn [schedule length] in *.
    destruct (dispatch_Some th j (mk j ip)) as (joined & -> & _); [done|lia|].
    assert (to_ushort (j + 1) = j + 1) as ->
      by (apply to_ushort_id; unfold is_ushort; lia).
    destruct (IH (if j + 1 =? limit then 0 else j + 1)
                 (<[Z.to_nat j := Some (mk j ip)]> th)) as (th2 & events & -> & Hlen).
    { unfold in_bounds. rewrite length_insert.
      destruct (Z.eqb_spec (j + 1) limit); lia. }
    rewrite length_insert in Hlen. eauto.
Qed.

Lemma schedule_undefined mk limit ip rest j :
  schedule mk limit (ip :: rest) j [] = None.
Proof. done. Qed.

Lemma is_ushort_to_ushort z : is_ushort (to_ushort z).
Proof. unfold is_ushort, to_ushort, USHORT_MOD. by apply Z.mod_pos_bound. Qed.

Lemma collectors_nbThreads_min maxThreads nbIPIDs nbIPs :
  is_ushort maxThreads → is_ushort nbIPIDs → 0 < nbIPs →
  collectors_nbThreads maxThreads nbIPIDs nbIPs
  = Z.min nbIPs (maxThreads / (nbIPIDs + 1)).
Proof.
  unfold is_ushort, USHORT_MOD. intros Hm Hn Hips. unfold collectors_nbThreads.
  rewrite Z.quot_div_nonneg by lia.
  assert (0 ≤ maxThreads / (nbIPIDs + 1) ≤ maxThreads) as Hq.
  { split; [apply Z.div_pos; lia|]. apply Z.div_le_upper_bound; nia. }
  rewrite to_ushort_id by (unfold is_ushort, USHORT_MOD; lia).
  destruct (Z.gtb_spec nbIPs (maxThreads / (nbIPIDs + 1))); [lia|].
  rewrite to_ushort_id by (unfold is_ushort, USHORT_MOD; lia). lia.
Qed.

Lemma units_nbThreads_min maxThreads nbIPs :
  is_ushort maxThreads → 0 ≤ nbIPs →
  units_nbThreads maxThreads nbIPs = Z.min nbIPs maxThreads.
Proof.
  unfold is_ushort, USHORT_MOD. intros Hm Hips. unfold units_nbThreads.
  destruct (Z.gtb_spec nbIPs maxThreads); [lia|].
  rewrite to_ushort_id by (unfold is_ushort, USHORT_MOD; lia). lia.
Qed.

(** The phases of [run_phases], seen from its result. *)
Lemma run_phases_inv env dp ips events :
  run_phases env dp ips = Some events →
  (ips = [] ∧ events = []) ∨
  ∃ range th1 events1 th2 events2 th3 events3 th4 events4,
    let maxThreads := to_ushort (getMaxThreads env) in
    let nbIPIDs := to_ushort (getNbIPIDs env) in
    let nbIPs := Z.of_nat (length ips) in
    ips ≠ [] ∧
    port_range dp maxThreads = Some range ∧
    schedule (phase1_unit nbIPIDs) (collectors_nbThreads maxThreads nbIPIDs nbIPs)
      ips 0 (replicate (Z.to_nat (collectors_nbThreads maxThreads nbIPIDs nbIPs)) None)
    = Some (th1, events1) ∧
    schedule (phase2_unit dp range) maxThreads ips 0
      (replicate (Z.to_nat (units_nbThreads maxThreads nbIPs)) None)
    = Some (th2, events2) ∧
    schedule (phase3_unit dp range) maxThreads ips 0 (cleared th2)
    = Some (th3, events3) ∧
    schedule phase4_unit maxThreads ips 0 (cleared th3) = Some (th4, events4) ∧
    events = (events1 ++ drain 0 th1) ++ (events2 ++ drain 0 th2)
             ++ (events3 ++ drain 0 th3) ++ (events4 ++ drain 0 th4).
Proof.
  unfold run_phases.
  destruct (Z.eqb_spec (Z.of_nat (length ips)) 0) as [Hnil|Hne].
  { intros [= <-]. left. split; [|done]. destruct ips; [done|]. simpl in Hnil. lia. }
  intros Hrun. right.
  destruct (schedule (phase1_unit _) _ ips 0 _) as [[th1 events1]|] eqn:H1;
    [|done].
  cbn [mbind option_bind] in Hrun.
  destruct (port_range dp _) as [range|] eqn:Hrange; [|done].
  cbn [mbind option_bind] in Hrun.
  destruct (schedule (phase2_unit _ _) _ ips 0 _) as [[th2 events2]|] eqn:H2;
    [|done].
  cbn [mbind option_bind] in Hrun.
  destruct (schedule (phase3_unit _ _) _ ips 0 _) as [[th3 events3]|] eqn:H3;
    [|done].
  cbn [mbind option_bind] in Hrun.
  destruct (schedule phase4_unit _ ips 0 _) as [[th4 events4]|] eqn:H4; [|done].
  cbn [mbind option_bind] in Hrun. injection Hrun as <-.
  exists range, th1, events1, th2, events2, th3, events3, th4, events4.
  cbn zeta. repeat split; try done. by intros ->.
Qed.

(** With room for no collector, the first iteration of phase 1 reads a
    slot of an array without slots. *)
Lemma run_phases_undefined env dp ips :
  is_ushort (getMaxThreads env) → is_ushort (getNbIPIDs env) → ips ≠ [] →
  getMaxThreads env < getNbIPIDs env + 1 →
  run_phases env dp ips = None.
Proof.
  intros Hm Hn Hips Hlt. unfold run_phases.
  rewrite !to_ushort_id by done.
  destruct (Z.eqb_spec (Z.of_nat (length ips)) 0) as [Hnil|Hne].
  { destruct ips; [done|]. simpl in Hnil. lia. }
  rewrite collectors_nbThreads_min by (try done; lia).
  unfold is_ushort in *.
  rewrite Z.div_small, Z.min_r by lia.
  destruct ips as [|ip rest]; [done|]. done.
Qed.

(** With room for one collector at least, the loops of the four phases stay
    inside of their arrays. *)
Lemma run_phases_defined env dp ips :
  is_ushort (getMaxThreads env) → is_ushort (getNbIPIDs env) →
  getNbIPIDs env + 1 ≤ getMaxThreads env →
  is_Some (run_phases env dp ips).
Proof.
  intros Hm Hn Hle. unfold run_phases.
  rewrite !to_ushort_id by done.
  destruct (Z.eqb_spec (Z.of_nat (length ips)) 0) as [Hnil|Hne]; [done|].
  set (maxThreads := getMaxThreads env) in *.
  set (nbIPIDs := getNbIPIDs env) in *.
  set (nbIPs := Z.of_nat (length ips)) in *.
  assert (0 < nbIPs) as Hpos by lia.
  assert (1 ≤ maxThreads / (nbIPIDs + 1) ≤ maxThreads) as Hq.
  { unfold is_ushort in *. split.
    - apply Z.div_le_lower_bound; lia.
    - apply Z.div_le_upper_bound; nia. }
  unfold is_ushort, USHORT_MOD in *.
  destruct (schedule_defined (phase1_unit nbIPIDs)
              (collectors_nbThreads maxThreads nbIPIDs nbIPs) ips 0
              (replicate (Z.to_nat (collectors_nbThreads maxThreads nbIPIDs nbIPs)) None))
    as (th1 & events1 & -> & _).
  { unfold in_bounds, USHORT_MOD. rewrite length_replicate.
    rewrite collectors_nbThreads_min by (unfold is_ushort, USHORT_MOD; lia). lia. }
  cbn [mbind option_bind]. unfold port_range.
  destruct (Z.eqb_spec maxThreads 0) as [?|_]; [lia|]. cbn [mbind option_bind].
  assert (in_bounds maxThreads ips 0
            (replicate (Z.to_nat (units_nbThreads maxThreads nbIPs)) None)) as Hb.
  { unfold in_bounds, USHORT_MOD. rewrite length_replicate.
    rewrite units_nbThreads_min by (unfold is_ushort, USHORT_MOD; lia).
    fold nbIPs. lia. }
  destruct (schedule_defined (phase2_unit dp
              (to_ushort ((DEFAULT_UPPER_SRC_PORT_ICMP_ID dp
                           - DEFAULT_LOWER_SRC_PORT_ICMP_ID dp) ÷ maxThreads)))
              maxThreads ips 0 _ Hb) as (th2 & events2 & -> & Hlen2).
  cbn [mbind option_bind].
  assert (in_bounds maxThreads ips 0 (cleared th2)) as Hb2.
  { unfold cleared. rewrite Hlen2, length_replicate.
    unfold in_bounds in *. by rewrite !length_replicate in *. }
  destruct (schedule_defined (phase3_unit dp
              (to_ushort ((DEFAULT_UPPER_SRC_PORT_ICMP_ID dp
                           - DEFAULT_LOWER_SRC_PORT_ICMP_ID dp) ÷ maxThreads)))
              maxThreads ips 0 _ Hb2) as (th3 & events3 & -> & Hlen3).
  cbn [mbind option_bind].
  assert (in_bounds maxThreads ips 0 (cleared th3)) as Hb3.
  { unfold cleared in *. rewrite Hlen3, !length_replicate.
    unfold in_bounds in *. by rewrite !length_replicate in *. }
  destruct (schedule_defined phase4_unit maxThreads ips 0 _ Hb3)
    as (th4 & events4 & -> & _).
  done.
Qed.

(** *** The events of a scheduling loop *)

Lemma in_bounds_step limit ip rest j th x :
  in_bounds limit (ip :: rest) j th →
  0 ≤ j < limit ∧ (Z.to_nat j < length th)%nat ∧ to_ushort (j + 1) = j + 1 ∧
  in_bounds limit rest (if j + 1 =? limit then 0 else j + 1)
    (<[Z.to_nat j := x]> th).
Proof.
  unfold in_bounds. rewrite length_insert. cbn [length].
  intros (Hj & Hlim & Hcase).
  split; [lia|]. split; [lia|]. split.
  - apply to_ushort_id. unfold is_ushort. lia.
  - destruct (Z.eqb_spec (j + 1) limit); lia.
Qed.

Lemma schedule_events (Q : Z → Runnable → Prop) mk limit ips j th th2 events :
  (∀ j ip, ip ∈ ips → 0 ≤ j < limit → Q j (mk j ip)) →
  in_bounds limit ips j th → pool_ok Q th →
  schedule mk limit ips j th = Some (th2, events) →
  pool_ok Q th2 ∧ Forall (λ e, Q (event_slot e) (event_unit e)) events.
Proof.
  revert j th events.
  induction ips as [|ip rest IH]; intros j th events Hmk Hb Hth Hrun.
  - injection Hrun as <- <-. by split.
  - apply schedule_cons_inv in Hrun
      as (th1 & events1 & events2 & Hd & Hrest & ->).
    apply dispatch_inv in Hd as (_ & -> & Hev).
    apply (in_bounds_step _ _ _ _ _ (Some (mk j ip))) in Hb
      as (Hj & Hlt & Hj1 & Hb).
    rewrite Hj1 in Hrest.
    assert (Q j (mk j ip)) as Hnew by (apply Hmk; [left|done]).
    destruct (IH _ _ events2
                (λ j' ip' Hin, Hmk j' ip' (list_elem_of_further _ _ _ Hin)) Hb)
      as [Hth2 Hev2]; [|done|].
    { intros i u Hi. destruct (decide (i = Z.to_nat j)) as [->|Hne].
      - rewrite list_lookup_insert_eq in Hi by done. injection Hi as <-.
        by rewrite Z2Nat.id by lia.
      - rewrite list_lookup_insert_ne in Hi by done. by apply Hth. }
    split; [done|]. apply Forall_app. split; [|done].
    destruct Hev as [[-> _] | (old & -> & Hold)].
    + by repeat constructor.
    + apply Hth in Hold. rewrite Z2Nat.id in Hold by lia.
      by repeat constructor.
Qed.

Lemma drain_events (Q : Z → Runnable → Prop) i th :
  (∀ k u, th !! k = Some (Some u) → Q (i + Z.of_nat k) u) →
  Forall (λ e, Q (event_slot e) (event_unit e)) (drain i th).
Proof.
  revert i. induction th as [|slot th IH]; intros i Hth; [constructor|].
  assert (Forall (λ e, Q (event_slot e) (event_unit e)) (drain (i + 1) th)) as Hrest.
  { apply IH. intros k u Hk.
    replace (i + 1 + Z.of_nat k) with (i + Z.of_nat (S k)) by lia.
    by apply Hth. }
  cbn [drain]. destruct slot as [u|]; [|done].
  constructor; [|done]. cbn [event_slot event_unit].
  replace i with (i + Z.of_nat 0) by lia. by apply Hth.
Qed.

Lemma pool_ok_replicate Q n : pool_ok Q (replicate n None).
Proof. intros i u [[=] _]%lookup_replicate. Qed.

(** *** The workers that run *)

Lemma replay_app events1 events2 running :
  replay (events1 ++ events2) running
  = replay events1 running ≫= replay events2.
Proof.
  revert running. induction events1 as [|[j u|j u] events1 IH]; intros running;
    [done|cbn [app replay]..].
  - destruct (running !! j); [done|]. apply IH.
  - destruct (decide (running !! j = Some u)); [|done]. apply IH.
Qed.

Lemma represents_insert th running j u :
  represents 0 th running → 0 ≤ j → (Z.to_nat j < length th)%nat →
  represents 0 (<[Z.to_nat j := Some u]> th) (<[j := u]> running).
Proof.
  intros Hrep Hj Hlt j' u'. specialize (Hrep j' u'). rewrite Z.sub_0_r in *.
  destruct (decide (j' = j)) as [->|Hne].
  - rewrite lookup_insert_eq, list_lookup_insert_eq by done.
    split; [by intros [= ->]|by intros [_ [= ->]]].
  - rewrite lookup_insert_ne by done. rewrite Hrep.
    split; intros [Hj' Hl]; (split; [done|]).
    + rewrite list_lookup_insert_ne by lia. done.
    + rewrite list_lookup_insert_ne in Hl by lia. done.
Qed.

Lemma dispatch_replay th running j u th1 events1 :
  represents 0 th running → 0 ≤ j →
  dispatch th j u = Some (th1, events1) →
  ∃ running1, replay events1 running = Some running1 ∧
              represents 0 th1 running1.
Proof.
  intros Hrep Hj (Hlt & -> & Hev)%dispatch_inv.
  exists (<[j := u]> running). split; [|by apply represents_insert].
  destruct Hev as [[-> Hslot] | (old & -> & Hslot)]; cbn [replay].
  - destruct (running !! j) as [x|] eqn:Hx; [|done].
    apply Hrep in Hx as [_ Hx]. rewrite Z.sub_0_r in Hx. congruence.
  - assert (running !! j = Some old) as Hold.
    { apply Hrep. by rewrite Z.sub_0_r. }
    destruct (decide (running !! j = Some old)); [|done].
    by rewrite lookup_delete_eq, insert_delete_eq.
Qed.

Lemma schedule_replay mk limit ips j th running th2 events :
  represents 0 th running → 0 ≤ j →
  schedule mk limit ips j th = Some (th2, events) →
  ∃ running2, replay events running = Some running2 ∧
              represents 0 th2 running2.
Proof.
  revert j th running events.
  induction ips as [|ip rest IH]; intros j th running events Hrep Hj Hrun.
  - injection Hrun as <- <-. by exists running.
  - apply schedule_cons_inv in Hrun
      as (th1 & events1 & events2 & Hd & Hrest & ->).
    destruct (dispatch_replay _ _ _ _ _ _ Hrep Hj Hd) as (running1 & Hr1 & Hrep1).
    assert (0 ≤ if to_ushort (j + 1) =? limit then 0 else to_ushort (j + 1))
      as Hj2.
    { pose proof (is_ushort_to_ushort (j + 1)) as [? _].
      destruct (_ =? _); lia. }
    destruct (IH _ _ _ _ Hrep1 Hj2 Hrest) as (running2 & Hr2 & Hrep2).
    exists running2. split; [|done]. by rewrite replay_app, Hr1.
Qed.

Lemma represents_tail i slot th running :
  represents i (slot :: th) running → represents (i + 1) th (delete i running).
Proof.
  intros Hrep j u. specialize (Hrep j u).
  rewrite lookup_delete_Some, Hrep. split.
  - intros (Hne & Hij & Hl). split; [lia|].
    replace (Z.to_nat (j - i)) with (S (Z.to_nat (j - (i + 1)))) in Hl by lia.
    done.
  - intros (Hij & Hl). split; [lia|]. split; [lia|].
    replace (Z.to_nat (j - i)) with (S (Z.to_nat (j - (i + 1)))) by lia.
    done.
Qed.

Lemma drain_replay i th running :
  represents i th running → replay (drain i th) running = Some ∅.
Proof.
  revert i running. induction th as [|slot th IH]; intros i running Hrep.
  - cbn [drain replay]. f_equal. apply map_empty. intros j.
    destruct (running !! j) as [u|] eqn:Hu; [|done].
    by apply Hrep in Hu as [_ Hu].
  - pose proof (represents_tail _ _ _ _ Hrep) as Htail.
    cbn [drain]. destruct slot as [u|].
    + cbn [replay]. assert (running !! i = Some u) as Hu.
      { apply Hrep. split; [lia|]. by rewrite Z.sub_diag. }
      destruct (decide (running !! i = Some u)); [|done]. by apply IH.
    + assert (running !! i = None) as Hi.
      { destruct (running !! i) as [u|] eqn:Hu; [|done].
        apply Hrep in Hu as [_ Hu]. by rewrite Z.sub_diag in Hu. }
      rewrite delete_id in Htail by done. by apply IH.
Qed.

Lemma represents_replicate n : represents 0 (replicate n None) ∅.
Proof.
  intros j u. rewrite lookup_empty. split; [done|].
  by intros [_ [[=] _]%lookup_replicate].
Qed.

(** A scheduling loop on an array of NULL slots, followed by the loop
    that waits: no worker runs afterwards. *)
Lemma phase_replay mk limit ips n th2 events :
  schedule mk limit ips 0 (replicate n None) = Some (th2, events) →
  replay (events ++ drain 0 th2) ∅ = Some ∅.
Proof.
  intros Hrun.
  destruct (schedule_replay _ _ _ _ _ _ _ _ (represents_replicate n) (Z.le_refl 0) Hrun)
    as (running2 & Hr & Hrep).
  rewrite replay_app, Hr. by apply drain_replay.
Qed.

(** A worker that runs is joined by the rest of the sequence, or still
    runs at its end. *)
Lemma replay_running events running running2 j u :
  replay events running = Some running2 → running !! j = Some u →
  Join j u ∈ events ∨ running2 !! j = Some u.
Proof.
  revert running.
  induction events as [|[j' u'|j' u'] events IH]; intros running Hr Hj;
    cbn [replay] in Hr.
  - injection Hr as <-. by right.
  - destruct (running !! j') as [x|] eqn:Hx; [done|].
    destruct (IH _ Hr) as [Hin|Hrun]; [|left; by right|by right].
    rewrite lookup_insert_ne; [done|]. congruence.
  - destruct (decide (running !! j' = Some u')) as [Hx|]; [|done].
    destruct (decide (j' = j)) as [->|Hne].
    + left. replace u' with u by congruence. left.
    + destruct (IH _ Hr) as [Hin|Hrun]; [|left; by right|by right].
      by rewrite lookup_delete_ne.
Qed.

Lemma replay_drained events :
  replay events ∅ = Some ∅ → drained events.
Proof.
  intros Hr a j u b ->. rewrite replay_app in Hr.
  destruct (replay a ∅) as [running|] eqn:Ha; [|done].
  cbn [mbind option_bind replay] in Hr.
  destruct (running !! j); [done|].
  destruct (replay_running _ _ _ j u Hr) as [Hin|Hrun]; [|done|].
  - apply lookup_insert_eq.
  - by rewrite lookup_empty in Hrun.
Qed.

(** The units that [running] holds were started. *)
Lemma replay_started events running running2 j u :
  replay events running = Some running2 → running2 !! j = Some u →
  Start j u ∈ events ∨ running !! j = Some u.
Proof.
  revert running.
  induction events as [|[j' u'|j' u'] events IH]; intros running Hr Hj;
    cbn [replay] in Hr.
  - injection Hr as <-. by right.
  - destruct (running !! j') as [x|] eqn:Hx; [done|].
    destruct (IH _ Hr Hj) as [Hin|Hrun]; [left; by right|].
    destruct (decide (j' = j)) as [->|Hne].
    + rewrite lookup_insert_eq in Hrun. injection Hrun as ->. left. left.
    + rewrite lookup_insert_ne in Hrun by done. by right.
  - destruct (decide (running !! j' = Some u')) as [Hx|]; [|done].
    destruct (IH _ Hr Hj) as [Hin|Hrun]; [left; by right|].
    apply lookup_delete_Some in Hrun as [_ Hrun]. by right.
Qed.

(** *** The units of a phase and the barrier *)

Lemma schedule_units (Q : Runnable → Prop) mk limit ips j th th2 events :
  (∀ j ip, Q (mk j ip)) →
  (∀ i u, th !! i = Some (Some u) → Q u) →
  schedule mk limit ips j th = Some (th2, events) →
  (∀ i u, th2 !! i = Some (Some u) → Q u) ∧
  Forall (λ e, Q (event_unit e)) events.
Proof.
  intros Hmk. revert j th events.
  induction ips as [|ip rest IH]; intros j th events Hth Hrun.
  - injection Hrun as <- <-. by split.
  - apply schedule_cons_inv in Hrun
      as (th1 & events1 & events2 & Hd & Hrest & ->).
    apply dispatch_inv in Hd as (Hlt & -> & Hev).
    assert (∀ i u, <[Z.to_nat j := Some (mk j ip)]> th !! i = Some (Some u) → Q u)
      as Hth1.
    { intros i u Hi. destruct (decide (i = Z.to_nat j)) as [->|Hne].
      - rewrite list_lookup_insert_eq in Hi by done. by injection Hi as <-.
      - rewrite list_lookup_insert_ne in Hi by done. by eapply Hth. }
    destruct (IH _ _ _ Hth1 Hrest) as [Hth2 Hev2].
    split; [done|]. apply Forall_app. split; [|done].
    destruct Hev as [[-> _] | (old & -> & Hold)]; repeat constructor;
      cbn [event_unit]; eauto.
Qed.

Lemma drain_units (Q : Runnable → Prop) i th :
  (∀ k u, th !! k = Some (Some u) → Q u) →
  Forall (λ e, Q (event_unit e)) (drain i th).
Proof.
  intros Hth. apply (drain_events (λ _, Q)). eauto.
Qed.

(** The events of one phase: a scheduling loop on an array of NULL slots
    and the loop that waits. *)
Lemma phase_units (Q : Runnable → Prop) mk limit ips n th2 events :
  (∀ j ip, Q (mk j ip)) →
  schedule mk limit ips 0 (replicate n None) = Some (th2, events) →
  Forall (λ e, Q (event_unit e)) (events ++ drain 0 th2).
Proof.
  intros Hmk Hrun.
  assert (∀ i u, replicate n (@None Runnable) !! i = Some (Some u) → Q u) as Hth.
  { by intros i u [[=] _]%lookup_replicate. }
  destruct (schedule_units Q _ _ _ _ _ _ _ Hmk Hth Hrun) as [Hth2 Hev].
  apply Forall_app. split; [done|]. by apply drain_units.
Qed.

Lemma app_cons_split {A} (l1 : list A) x l2 t rest :
  l1 ++ x :: l2 = t ++ rest →
  (∃ l2', t = l1 ++ x :: l2' ∧ l2 = l2' ++ rest) ∨
  (∃ r1, rest = r1 ++ x :: l2 ∧ l1 = t ++ r1).
Proof.
  revert l1. induction t as [|y t IH]; intros l1 Heq.
  - right. by exists l1.
  - destruct l1 as [|z l1]; injection Heq as -> Heq.
    + left. by exists t.
    + destruct (IH _ Heq) as [(l2' & -> & ->) | (r1 & -> & ->)].
      * left. by exists l2'.
      * right. by exists r1.
Qed.

(** A segment of one phase, drained, in front of a trace of later phases
    that has the barrier. *)
Lemma barrier_app k segment rest :
  Forall (λ e, phase_of (event_unit e) = k) segment → drained segment →
  Forall (λ e, k < phase_of (event_unit e)) rest → barrier rest →
  barrier (segment ++ rest).
Proof.
  intros Hseg Hdr Hrest Hbar l1 j' u' l2 Heq j u Hlt.
  rewrite Forall_forall in Hseg. rewrite Forall_forall in Hrest.
  symmetry in Heq. apply app_cons_split in Heq as [(l2' & -> & ->) | (r1 & -> & ->)].
  - assert (phase_of u' = k) as Hk.
    { apply (Hseg (Start j' u')). set_solver. }
    split.
    + intros [Hin|Hin]%elem_of_app.
      * assert (phase_of u = k) by (apply (Hseg (Start j u)); set_solver). lia.
      * specialize (Hrest _ Hin). cbn in Hrest. lia.
    + intros a b ->.
      assert (phase_of u = k) by (apply (Hseg (Start j u)); set_solver). lia.
  - destruct (Hbar r1 j' u' l2 eq_refl j u Hlt) as [Hnot Hjoin].
    split; [done|]. intros a b Heq. symmetry in Heq.
    apply app_cons_split in Heq as [(b' & -> & ->) | (a' & -> & ->)].
    + apply elem_of_app. left. by eapply Hdr.
    + by eapply Hjoin.
Qed.

Lemma barrier_nil : barrier [].
Proof. intros l1 j' u' l2 Heq. by destruct l1. Qed.

Lemma elem_of_orchestrator_steps e (exec : list Step) :
  e ∈ omap orchestrator_step exec ↔ Orchestrator e ∈ exec.
Proof.
  rewrite list_elem_of_omap. split.
  - intros ([e'|j u] & Hin & [= <-]). done.
  - intros Hin. by exists (Orchestrator e).
Qed.

(** Under the barrier no worker writes after a worker of a later phase has
    written, however the steps of the workers fall between those of the
    orchestrating thread. *)
Lemma barrier_writes trace exec :
  barrier trace → interleaving exec trace →
  ∀ e1 j' u' e2, exec = e1 ++ Write j' u' :: e2 →
  ∀ j u, phase_of u < phase_of u' → Write j u ∉ e2.
Proof.
  intros Hbar [Hproj Hlive] e1 j' u' e2 -> j u Hlt Hin.
  apply list_elem_of_split in Hin as (c & d & ->).
  destruct (Hlive (e1 ++ Write j' u' :: c) j u d) as (a & b & Hab & Hnojoin).
  { by rewrite <-app_assoc. }
  destruct (Hlive e1 j' u' (c ++ Write j u :: d) eq_refl) as (a' & b' & -> & _).
  rewrite <-app_assoc in Hab. cbn [app] in Hab.
  rewrite <-app_assoc, omap_app in Hproj. cbn [app omap orchestrator_step] in Hproj.
  destruct (Hbar _ _ _ _ (eq_sym Hproj) j u Hlt) as [Hnostart Hjoined].
  symmetry in Hab. apply app_cons_split in Hab as [(l2' & -> & ->) | (r1 & Hr1 & ->)].
  - apply Hnojoin. apply elem_of_app. left.
    apply elem_of_orchestrator_steps. eapply Hjoined.
    by rewrite omap_app.
  - destruct r1 as [|s r1]; cbn [app] in Hr1.
    + assert (u' = u) as -> by congruence. lia.
    + assert (b' ++ Write j' u' :: c = r1 ++ Orchestrator (Start j u) :: b) as HR
        by congruence.
      apply Hnostart. apply elem_of_orchestrator_steps.
      replace (b' ++ Write j' u' :: c ++ Write j u :: d)
        with ((b' ++ Write j' u' :: c) ++ Write j u :: d)
        by (by rewrite <-app_assoc).
      rewrite HR. set_solver.
Qed.

(** The four segments of a trace of [run_phases]. *)
Lemma run_phases_segments env dp ips events :
  run_phases env dp ips = Some events →
  ∃ segment1 segment2 segment3 segment4,
    events = segment1 ++ segment2 ++ segment3 ++ segment4 ∧
    (Forall (λ e, phase_of (event_unit e) = 1) segment1 ∧
     Forall (λ e, phase_of (event_unit e) = 2) segment2 ∧
     Forall (λ e, phase_of (event_unit e) = 3) segment3 ∧
     Forall (λ e, phase_of (event_unit e) = 4) segment4) ∧
    (replay segment1 ∅ = Some ∅ ∧ replay segment2 ∅ = Some ∅ ∧
     replay segment3 ∅ = Some ∅ ∧ replay segment4 ∅ = Some ∅).
Proof.
  intros [[-> ->] | Hrun]%run_phases_inv.
  { exists [], [], [], []. by repeat split. }
  destruct Hrun as (range & th1 & events1 & th2 & events2 & th3 & events3
                    & th4 & events4 & _ & _ & H1 & H2 & H3 & H4 & ->).
  exists (events1 ++ drain 0 th1), (events2 ++ drain 0 th2),
         (events3 ++ drain 0 th3), (events4 ++ drain 0 th4).
  split; [done|]. split.
  - split; [|split; [|split]];
      (eapply (phase_units (λ u, phase_of u = _)); [|eassumption]); done.
  - split; [|split; [|split]]; eapply phase_replay; eassumption.
Qed.

Lemma run_phases_barrier env dp ips events :
  run_phases env dp ips = Some events → barrier events.
Proof.
  intros (s1 & s2 & s3 & s4 & -> & (Hp1 & Hp2 & Hp3 & Hp4)
          & (Hr1 & Hr2 & Hr3 & Hr4))%run_phases_segments.
  rewrite <-(app_nil_r s4).
  apply (barrier_app 1); [done|by apply replay_drained| |].
  { rewrite !Forall_app. repeat split; try done;
      (eapply Forall_impl; [eassumption|]); intros e He; simpl in He; lia. }
  apply (barrier_app 2); [done|by apply replay_drained| |].
  { rewrite !Forall_app. repeat split; try done;
      (eapply Forall_impl; [eassumption|]); intros e He; simpl in He; lia. }
  apply (barrier_app 3); [done|by apply replay_drained| |].
  { rewrite !Forall_app. repeat split; try done;
      (eapply Forall_impl; [eassumption|]); intros e He; simpl in He; lia. }
  apply (barrier_app 4); [done|by apply replay_drained|done|].
  apply barrier_nil.
Qed.

(** The trace is well-formed: a slot is joined before it is used again, and
    no worker runs when [collect] returns. *)
Lemma run_phases_replay env dp ips events :
  run_phases env dp ips = Some events → replay events ∅ = Some ∅.
Proof.
  intros (s1 & s2 & s3 & s4 & -> & _ & (Hr1 & Hr2 & Hr3 & Hr4))%run_phases_segments.
  rewrite replay_app, Hr1. cbn [mbind option_bind].
  rewrite replay_app, Hr2. cbn [mbind option_bind].
  by rewrite replay_app, Hr3.
Qed.

Lemma collect_inv env dp c table o :
  collect env dp c table = Some o →
  run_phases env dp (sort_and_preprocess c table).1 = Some (out_trace o) ∧
  out_table o = (sort_and_preprocess c table).2 ∧
  IPsToProbe (out_collector o) = [].
Proof.
  unfold collect. destruct (sort_and_preprocess c table) as [ips table1].
  cbn [fst snd].
  destruct (run_phases env dp ips) as [events|]; [|done].
  by intros [= <-].
Qed.

(** *** The source port bands of phases 2 and 3 *)

Lemma port_range_div dp maxThreads range :
  port_range dp maxThreads = Some range →
  is_ushort maxThreads →
  0 ≤ DEFAULT_LOWER_SRC_PORT_ICMP_ID dp ≤ DEFAULT_UPPER_SRC_PORT_ICMP_ID dp →
  is_ushort (DEFAULT_UPPER_SRC_PORT_ICMP_ID dp) →
  0 < maxThreads ∧
  range = (DEFAULT_UPPER_SRC_PORT_ICMP_ID dp - DEFAULT_LOWER_SRC_PORT_ICMP_ID dp)
          / maxThreads ∧
  0 ≤ range ∧
  maxThreads * range
  ≤ DEFAULT_UPPER_SRC_PORT_ICMP_ID dp - DEFAULT_LOWER_SRC_PORT_ICMP_ID dp.
Proof.
  unfold port_range, is_ushort, USHORT_MOD. intros Hr Hm Hlu Hu.
  destruct (Z.eqb_spec maxThreads 0) as [|Hne]; [done|]. injection Hr as <-.
  set (L := DEFAULT_LOWER_SRC_PORT_ICMP_ID dp) in *.
  set (U := DEFAULT_UPPER_SRC_PORT_ICMP_ID dp) in *.
  rewrite Z.quot_div_nonneg by lia.
  assert (0 ≤ (U - L) / maxThreads ≤ U - L) as Hq.
  { split; [apply Z.div_pos; lia|]. apply Z.div_le_upper_bound; nia. }
  rewrite to_ushort_id by (unfold is_ushort, USHORT_MOD; lia).
  repeat split; try lia. apply Z.mul_div_le. lia.
Qed.

Lemma bands_disjoint dp range j1 j2 p :
  0 ≤ range → j1 ≠ j2 →
  ¬ (band_lower dp range j1 ≤ p ≤ band_upper dp range j1 ∧
     band_lower dp range j2 ≤ p ≤ band_upper dp range j2).
Proof. unfold band_lower, band_upper. intros Hr Hne. nia. Qed.

Lemma schedule_length mk limit ips j th th2 events :
  schedule mk limit ips j th = Some (th2, events) → length th2 = length th.
Proof.
  revert j th events. induction ips as [|ip rest IH]; intros j th events Hrun.
  - by injection Hrun as <- <-.
  - apply schedule_cons_inv in Hrun
      as (th1 & events1 & events2 & Hd & Hrest & ->).
    apply dispatch_inv in Hd as (_ & -> & _).
    apply IH in Hrest. by rewrite length_insert in Hrest.
Qed.

Lemma units_in_bounds maxThreads ips n :
  is_ushort maxThreads → 0 < maxThreads →
  n = Z.to_nat (units_nbThreads maxThreads (Z.of_nat (length ips))) →
  in_bounds maxThreads ips 0 (replicate n None).
Proof.
  intros Hm Hpos ->. unfold in_bounds. rewrite length_replicate.
  rewrite units_nbThreads_min by (try done; lia).
  unfold is_ushort in Hm. lia.
Qed.

(** In the events of [run_phases] a unit with source ports sits in a slot
    below maxThreads and has the band of this slot. *)
Lemma run_phases_bands env dp ips events range :
  is_ushort (getMaxThreads env) →
  run_phases env dp ips = Some events →
  port_range dp (getMaxThreads env) = Some range →
  Forall (λ e, band_of_slot dp range (getMaxThreads env)
                 (event_slot e) (event_unit e)) events.
Proof.
  intros Hm [[-> ->] | Hrun]%run_phases_inv Hrange; [constructor|].
  destruct Hrun as (range' & th1 & events1 & th2 & events2 & th3 & events3
                    & th4 & events4 & _ & Hrange' & H1 & H2 & H3 & H4 & ->).
  rewrite !to_ushort_id in * by done.
  assert (range' = range) as -> by congruence.
  assert (0 < getMaxThreads env) as Hpos.
  { unfold port_range in Hrange. unfold is_ushort in Hm.
    destruct (Z.eqb_spec (getMaxThreads env) 0); [done|lia]. }
  set (Q := band_of_slot dp range (getMaxThreads env)).
  assert (∀ events th,
            Forall (λ e, unit_band (event_unit e) = None) (events ++ drain 0 th) →
            Forall (λ e, Q (event_slot e) (event_unit e)) (events ++ drain 0 th))
    as Hnone.
  { intros evs th Hall. eapply Forall_impl; [exact Hall|].
    intros e He lo hi Hb. simpl in He. congruence. }
  assert (∀ mk th th' events,
            (∀ j ip, 0 ≤ j < getMaxThreads env → Q j (mk j ip)) →
            in_bounds (getMaxThreads env) ips 0 th → pool_ok Q th →
            schedule mk (getMaxThreads env) ips 0 th = Some (th', events) →
            Forall (λ e, Q (event_slot e) (event_unit e)) (events ++ drain 0 th'))
    as Hband.
  { intros mk th th' evs Hmk Hb Hth Hs.
    destruct (schedule_events Q mk _ _ _ _ _ _ (λ j ip _, Hmk j ip) Hb Hth Hs)
      as [Hth' Hev].
    apply Forall_app. split; [done|]. apply drain_events.
    intros k u Hk. rewrite Z.add_0_l. by apply Hth'. }
  assert (∀ j ip, 0 ≤ j < getMaxThreads env → Q j (phase2_unit dp range j ip))
    as Hmk2 by (by intros j ip Hj lo hi [= <- <-]).
  assert (∀ j ip, 0 ≤ j < getMaxThreads env → Q j (phase3_unit dp range j ip))
    as Hmk3 by (by intros j ip Hj lo hi [= <- <-]).
  pose proof (schedule_length _ _ _ _ _ _ _ H2) as Hlen2.
  pose proof (schedule_length _ _ _ _ _ _ _ H3) as Hlen3.
  rewrite length_replicate in Hlen2.
  unfold cleared in Hlen3. rewrite length_replicate, Hlen2 in Hlen3.
  apply Forall_app; split; [|apply Forall_app; split; [|apply Forall_app; split]].
  - apply Hnone.
    eapply (λ Hmk, phase_units (λ u, unit_band u = None) _ _ _ _ _ _ Hmk H1).
    by intros.
  - refine (Hband _ _ _ _ Hmk2 _ (pool_ok_replicate _ _) H2).
    by apply units_in_bounds.
  - refine (Hband _ _ _ _ Hmk3 _ (pool_ok_replicate _ _) H3).
    by apply units_in_bounds.
  - apply Hnone.
    eapply (λ Hmk, phase_units (λ u, unit_band u = None) _ _ _ _ _ _ Hmk H4).
    by intros.
Qed.

(** C1: for a list of [nbIPs > 0] addresses the array of phase 1 has
    min(nbIPs, maxThreads / (nbIPIDs + 1)) slots.  When
    maxThreads < nbIPIDs + 1 this is 0: the array has no slot and the first
    iteration of the scheduling loop of phase 1 reads outside of it.  When
    nbIPIDs + 1 ≤ maxThreads every access of the scheduling loops is
    inside of the array. *)
Theorem collectors_thread_count env dp ips :
  is_ushort (getMaxThreads env) → is_ushort (getNbIPIDs env) →
  0 < Z.of_nat (length ips) →
  collectors_nbThreads (getMaxThreads env) (getNbIPIDs env) (Z.of_nat (length ips))
  = Z.min (Z.of_nat (length ips)) (getMaxThreads env / (getNbIPIDs env + 1)) ∧
  (getMaxThreads env < getNbIPIDs env + 1 →
   collectors_nbThreads (getMaxThreads env) (getNbIPIDs env) (Z.of_nat (length ips)) = 0 ∧
   replicate (Z.to_nat (collectors_nbThreads (getMaxThreads env) (getNbIPIDs env)
                          (Z.of_nat (length ips)))) (@None Runnable) = [] ∧
   run_phases env dp ips = None) ∧
  (getNbIPIDs env + 1 ≤ getMaxThreads env → is_Some (run_phases env dp ips)).
Proof.
  intros Hm Hn Hips.
  split; [by apply collectors_nbThreads_min|]. split.
  - intros Hlt.
    assert (collectors_nbThreads (getMaxThreads env) (getNbIPIDs env)
              (Z.of_nat (length ips)) = 0) as ->.
    { rewrite collectors_nbThreads_min by done. unfold is_ushort in *.
      rewrite Z.div_small by lia. lia. }
    split; [done|]. split; [done|].
    apply run_phases_undefined; try done. intros ->. simpl in Hips. lia.
  - by apply run_phases_defined.
Qed.

(** The S6 scenario of the specification: 2 addresses, maxThreads = 2 and
    nbIPIDs = 4 leave room for no collector. *)
Lemma collectors_thread_count_witness :
  collectors_nbThreads 2 4 2 = 0 ∧
  run_phases (mkEnv 2 4) (mkPorts 39000 64000 33434 33534)
    [167772161; 167772162] = None.
Proof.
  pose proof (collectors_thread_count (mkEnv 2 4)
                (mkPorts 39000 64000 33434 33534) [167772161; 167772162])
    as (_ & Hzero & _); [done..|].
  destruct Hzero as (H0 & _ & Hnone); [simpl; lia|].
  split; [exact H0|exact Hnone].
Defined.

(** C7: in phases 2 and 3 the source ports from LOWER on are cut into
    maxThreads bands of [range] ports each, one behind the other and all
    inside of the interval; the unit started in slot [j] gets the band
    number [j]; the bands of two different slots share no port; and at
    every point of the run the workers that run sit in different slots, so
    that no two of them share a source port. *)
Theorem source_port_bands env dp c table o range :
  is_ushort (getMaxThreads env) →
  0 ≤ DEFAULT_LOWER_SRC_PORT_ICMP_ID dp ≤ DEFAULT_UPPER_SRC_PORT_ICMP_ID dp →
  is_ushort (DEFAULT_UPPER_SRC_PORT_ICMP_ID dp) →
  collect env dp c table = Some o →
  port_range dp (getMaxThreads env) = Some range →
  (range = (DEFAULT_UPPER_SRC_PORT_ICMP_ID dp - DEFAULT_LOWER_SRC_PORT_ICMP_ID dp)
           / getMaxThreads env ∧
   ∀ j, 0 ≤ j < getMaxThreads env →
     DEFAULT_LOWER_SRC_PORT_ICMP_ID dp ≤ band_lower dp range j ∧
     band_upper dp range j ≤ DEFAULT_UPPER_SRC_PORT_ICMP_ID dp ∧
     band_upper dp range j - band_lower dp range j + 1 = range ∧
     band_lower dp range (j + 1) = band_upper dp range j + 1) ∧
  (∀ e lo hi, e ∈ out_trace o → unit_band (event_unit e) = Some (lo, hi) →
     0 ≤ event_slot e < getMaxThreads env ∧
     lo = band_lower dp range (event_slot e) ∧
     hi = band_upper dp range (event_slot e)) ∧
  (∀ e1 e2 lo1 hi1 lo2 hi2 p,
     e1 ∈ out_trace o → e2 ∈ out_trace o →
     unit_band (event_unit e1) = Some (lo1, hi1) →
     unit_band (event_unit e2) = Some (lo2, hi2) →
     event_slot e1 ≠ event_slot e2 →
     ¬ (lo1 ≤ p ≤ hi1 ∧ lo2 ≤ p ≤ hi2)) ∧
  (∀ pre post, out_trace o = pre ++ post →
     ∃ running, replay pre ∅ = Some running ∧
       ∀ j1 j2 u1 u2 lo1 hi1 lo2 hi2 p,
         running !! j1 = Some u1 → running !! j2 = Some u2 → j1 ≠ j2 →
         unit_band u1 = Some (lo1, hi1) → unit_band u2 = Some (lo2, hi2) →
         ¬ (lo1 ≤ p ≤ hi1 ∧ lo2 ≤ p ≤ hi2)).
Proof.
  intros Hm Hlu Hu [Hrun _]%collect_inv Hrange.
  destruct (port_range_div _ _ _ Hrange Hm Hlu Hu) as (Hpos & Hdiv & Hr & Hmul).
  pose proof (run_phases_bands _ _ _ _ _ Hm Hrun Hrange) as Hbands.
  rewrite Forall_forall in Hbands.
  split; [|split; [|split]].
  - split; [done|]. intros j Hj. unfold band_lower, band_upper. nia.
  - intros e lo hi Hin Hb. by apply (Hbands e).
  - intros e1 e2 lo1 hi1 lo2 hi2 p Hin1 Hin2 Hb1 Hb2 Hne.
    destruct (Hbands e1 Hin1 lo1 hi1 Hb1) as (_ & Hlo1 & Hhi1).
    destruct (Hbands e2 Hin2 lo2 hi2 Hb2) as (_ & Hlo2 & Hhi2).
    rewrite Hlo1, Hhi1, Hlo2, Hhi2. by apply bands_disjoint.
  - intros pre post Hsplit.
    pose proof (run_phases_replay _ _ _ _ Hrun) as Hreplay.
    rewrite Hsplit, replay_app in Hreplay.
    destruct (replay pre ∅) as [running|] eqn:Hpre; [|done].
    exists running. split; [done|].
    intros j1 j2 u1 u2 lo1 hi1 lo2 hi2 p Hj1 Hj2 Hne Hb1 Hb2.
    destruct (replay_started _ _ _ _ _ Hpre Hj1) as [Hin1|Hin1];
      [|by rewrite lookup_empty in Hin1].
    destruct (replay_started _ _ _ _ _ Hpre Hj2) as [Hin2|Hin2];
      [|by rewrite lookup_empty in Hin2].
    destruct (Hbands (Start j1 u1)) with (lo := lo1) (hi := hi1)
      as (_ & Hlo1 & Hhi1); [rewrite Hsplit; apply elem_of_app; by left|done|].
    destruct (Hbands (Start j2 u2)) with (lo := lo2) (hi := hi2)
      as (_ & Hlo2 & Hhi2); [rewrite Hsplit; apply elem_of_app; by left|done|].
    cbn [event_slot] in *.
    rewrite Hlo1, Hhi1, Hlo2, Hhi2. by apply bands_disjoint.
Qed.

Lemma source_port_bands_witness :
  ∃ o,
    collect (mkEnv 4 1) (mkPorts 39000 64000 33434 33534)
      (mkCollector [167772163; 167772161; 167772163; 167772162] 5 1) ∅ = Some o ∧
    Start 1 (UDPUnreachablePortUnit 167772162 45250 51499 33434 33534)
      ∈ out_trace o ∧
    ∀ e lo hi, e ∈ out_trace o → unit_band (event_unit e) = Some (lo, hi) →
      0 ≤ event_slot e < 4 ∧
      lo = 39000 + event_slot e * 6250 ∧
      hi = 39000 + event_slot e * 6250 + 6250 - 1.
Proof.
  destruct (collect (mkEnv 4 1) (mkPorts 39000 64000 33434 33534)
              (mkCollector [167772163; 167772161; 167772163; 167772162] 5 1) ∅)
    as [o|] eqn:Hrun; [|vm_compute in Hrun; discriminate].
  exists o. split; [done|]. split.
  - vm_compute in Hrun. injection Hrun as <-. cbn [out_trace]. set_solver.
  - apply (source_port_bands (mkEnv 4 1) (mkPorts 39000 64000 33434 33534)
             (mkCollector [167772163; 167772161; 167772163; 167772162] 5 1) ∅
             o 6250); [done|simpl; lia|done|exact Hrun|reflexivity].
Defined.

Lemma to_ushort_idemp z : to_ushort (to_ushort z) = to_ushort z.
Proof. apply to_ushort_id, is_ushort_to_ushort. Qed.

(** [run_phases] is undefined only with addresses to probe and room for no
    collector. *)
Lemma run_phases_None env dp ips :
  run_phases env dp ips = None →
  ips ≠ [] ∧ to_ushort (getMaxThreads env) < to_ushort (getNbIPIDs env) + 1.
Proof.
  intros Hnone. split.
  { intros ->. discriminate Hnone. }
  destruct (Z.lt_ge_cases (to_ushort (getMaxThreads env))
              (to_ushort (getNbIPIDs env) + 1)) as [Hlt|Hge]; [done|].
  destruct (run_phases_defined
              (mkEnv (to_ushort (getMaxThreads env)) (to_ushort (getNbIPIDs env)))
              dp ips) as [events Hsome];
    [apply is_ushort_to_ushort..|exact Hge|].
  unfold run_phases in Hsome, Hnone. cbn [getMaxThreads getNbIPIDs] in Hsome.
  rewrite !to_ushort_idemp in Hsome. congruence.
Qed.

(** X12: wherever collect has a defined behaviour the barrier between the
    phases is strict.  In the order in which the orchestrating thread
    starts and joins its workers, when a unit of a phase starts every unit
    of an earlier phase that was started has been joined and none is
    started later; each slot is joined before it is used again and no
    worker runs at the end.  Hence, however the workers' steps fall between
    those of the orchestrating thread, no result of a phase is written once
    a result of a later phase has been written.  The only runs without a
    defined behaviour are those with addresses to probe and room for no
    collector (maxThreads < nbIPIDs + 1). *)
Theorem phase_barrier env dp c table :
  match collect env dp c table with
  | Some o =>
      barrier (out_trace o) ∧
      replay (out_trace o) ∅ = Some ∅ ∧
      ∀ exec, interleaving exec (out_trace o) →
        ∀ e1 j' u' e2, exec = e1 ++ Write j' u' :: e2 →
        ∀ j u, phase_of u < phase_of u' → Write j u ∉ e2
  | None =>
      (sort_and_preprocess c table).1 ≠ [] ∧
      to_ushort (getMaxThreads env) < to_ushort (getNbIPIDs env) + 1
  end.
Proof.
  destruct (collect env dp c table) as [o|] eqn:Hcollect.
  - apply collect_inv in Hcollect as [Hrun _].
    pose proof (run_phases_barrier _ _ _ _ Hrun) as Hbar.
    split; [done|]. split; [by eapply run_phases_replay|].
    intros exec Hexec. by eapply barrier_writes.
  - apply run_phases_None with (dp := dp). unfold collect in Hcollect.
    destruct (sort_and_preprocess c table) as [ips table1]. cbn [fst].
    by destruct (run_phases env dp ips).
Qed.

Lemma phase_barrier_witness :
  ∃ o,
    collect (mkEnv 4 1) (mkPorts 39000 64000 33434 33534)
      (mkCollector [167772163; 167772161; 167772163; 167772162] 5 1) ∅ = Some o ∧
    length (out_trace o) = 24%nat ∧
    barrier (out_trace o).
Proof.
  pose proof (phase_barrier (mkEnv 4 1) (mkPorts 39000 64000 33434 33534)
                (mkCollector [167772163; 167772161; 167772163; 167772162] 5 1) ∅)
    as Hbar.
  destruct (collect (mkEnv 4 1) (mkPorts 39000 64000 33434 33534)
              (mkCollector [167772163; 167772161; 167772163; 167772162] 5 1) ∅)
    as [o|] eqn:Hrun; [|vm_compute in Hrun; discriminate].
  exists o. split; [done|]. split.
  - vm_compute in Hrun. by injection Hrun as <-.
  - by destruct Hbar as [Hbar _].
Defined.

(** *** Further properties of AliasHintCollector.cpp *)

Lemma length_getProbeTokens n c : length (getProbeTokens n c).1 = n.
Proof.
  revert c. induction n as [|n IH]; intros c; [done|].
  cbn [getProbeTokens]. unfold getProbeToken.
  specialize (IH (mkCollector (IPsToProbe c) (currentTTL c)
                    (to_ulong (tokenCounter c + 1)))).
  destruct (getProbeTokens n _) as [tokens c2]. cbn [fst length] in *.
  by rewrite IH.
Qed.

Lemma getProbeTokens_state n c :
  is_ulong (tokenCounter c) →
  tokenCounter (getProbeTokens n c).2 = to_ulong (tokenCounter c + Z.of_nat n) ∧
  IPsToProbe (getProbeTokens n c).2 = IPsToProbe c ∧
  currentTTL (getProbeTokens n c).2 = currentTTL c.
Proof.
  revert c. induction n as [|n IH]; intros c Hc.
  - cbn [getProbeTokens snd]. by rewrite Z.add_0_r, to_ulong_id.
  - cbn [getProbeTokens]. unfold getProbeToken.
    specialize (IH (mkCollector (IPsToProbe c) (currentTTL c)
                      (to_ulong (tokenCounter c + 1)))).
    destruct (getProbeTokens n _) as [tokens c2]. cbn [snd] in *.
    destruct IH as (-> & -> & ->).
    { cbn [tokenCounter]. unfold is_ulong, to_ulong, ULONG_MOD.
      by apply Z.mod_pos_bound. }
    cbn [tokenCounter IPsToProbe currentTTL]. split; [|done].
    unfold to_ulong. rewrite Zplus_mod_idemp_l. f_equal. lia.
Qed.

Lemma mod_window_inj M a i j :
  0 < M → 0 ≤ i < M → 0 ≤ j < M → (a + i) mod M = (a + j) mod M → i = j.
Proof.
  intros HM Hi Hj Heq.
  pose proof (Z.div_mod (a + i) M) as H1.
  pose proof (Z.div_mod (a + j) M) as H2.
  rewrite Heq in H1.
  set (q1 := (a + i) / M) in *. set (q2 := (a + j) / M) in *.
  destruct (Z.lt_trichotomy q1 q2) as [Hq|[Hq|Hq]]; nia.
Qed.

(** X6: from any state of the collector, tokens returned by 2^64 successive
    calls of getProbeToken at most are pairwise different; the calls move
    the counter by their number modulo 2^64 and touch neither the list of
    addresses nor the TTL. *)
Theorem getProbeToken_distinct n c :
  is_ulong (tokenCounter c) → Z.of_nat n ≤ ULONG_MOD →
  NoDup (getProbeTokens n c).1 ∧
  tokenCounter (getProbeTokens n c).2 = to_ulong (tokenCounter c + Z.of_nat n) ∧
  IPsToProbe (getProbeTokens n c).2 = IPsToProbe c ∧
  currentTTL (getProbeTokens n c).2 = currentTTL c.
Proof.
  intros Hc Hn. split; [|by apply getProbeTokens_state].
  apply NoDup_alt. intros i j token Hi Hj.
  assert (i < n)%nat as Hin.
  { apply lookup_lt_Some in Hi. by rewrite length_getProbeTokens in Hi. }
  assert (j < n)%nat as Hjn.
  { apply lookup_lt_Some in Hj. by rewrite length_getProbeTokens in Hj. }
  rewrite getProbeTokens_lookup in Hi by done.
  rewrite getProbeTokens_lookup in Hj by done.
  injection Hi as Hi. injection Hj as Hj. rewrite <-Hj in Hi.
  apply Nat2Z.inj.
  apply (mod_window_inj ULONG_MOD (tokenCounter c)); [done|lia|lia|exact Hi].
Qed.

Lemma getProbeToken_distinct_witness :
  NoDup (getProbeTokens 3 (mkCollector [] 5 (ULONG_MOD - 2))).1 ∧
  (getProbeTokens 3 (mkCollector [] 5 (ULONG_MOD - 2))).1
  = [ULONG_MOD - 2; ULONG_MOD - 1; 0].
Proof.
  split; [|reflexivity].
  apply (getProbeToken_distinct 3 (mkCollector [] 5 (ULONG_MOD - 2))).
  - split; [discriminate|reflexivity].
  - discriminate.
Defined.

(** What the loop keeps of a sorted list: the elements that differ from
    [previous], once each. *)
Lemma preprocess_kept ttl previous l table kept table2 :
  Sorted Z.le l → Forall (Z.le previous) l →
  preprocess ttl previous l table = (kept, table2) →
  ∀ a, a ∈ kept ↔ a ∈ l ∧ a ≠ previous.
Proof.
  revert previous table kept.
  induction l as [|current rest IH]; intros previous table kept Hs Hall Hpre a.
  - injection Hpre as <- _. split; [by intros ?%elem_of_nil|].
    by intros [?%elem_of_nil _].
  - apply Sorted_StronglySorted in Hs; [|apply _].
    apply StronglySorted_cons in Hs as [Hrest Hs].
    apply StronglySorted_Sorted in Hs.
    apply Forall_cons in Hall as [Hcur _].
    apply preprocess_cons in Hpre
      as [[-> Hpre]|(Hne & kept1 & -> & Hpre)].
    + rewrite (IH _ _ _ Hs Hrest Hpre a), elem_of_cons. split.
      * intros [Hin Hne]. by split; [right|].
      * intros [[->|Hin] Hne]; done.
    + rewrite elem_of_cons, (IH _ _ _ Hs Hrest Hpre a), elem_of_cons.
      rewrite Forall_forall in Hrest. split.
      * intros [->|[Hin Hne']]; [by split; [left|]|].
        split; [by right|]. specialize (Hrest a Hin). lia.
      * intros [[->|Hin] Hne']; [by left|].
        destruct (decide (a = current)) as [->|]; [by left|by right].
Qed.

(** X7: with addresses in the range of their unsigned type, the list that
    collect probes holds exactly the addresses of IPsToProbe other than
    0.0.0.0 (each once, see C2): 0.0.0.0 is dropped because the loop
    compares the first address with an InetAddress of value 0. *)
Theorem collect_drops_zero c table a :
  Forall (Z.le 0) (IPsToProbe c) →
  (a ∈ (sort_and_preprocess c table).1 ↔ a ∈ IPsToProbe c ∧ a ≠ 0).
Proof.
  intros Hpos. unfold sort_and_preprocess.
  destruct (preprocess _ _ _ _) as [kept table2] eqn:Hpre. cbn [fst].
  assert (Forall (Z.le 0) (list_sort InetAddress_smaller (IPsToProbe c)))
    as Hall by (by rewrite list_sort_Permutation).
  rewrite (preprocess_kept _ _ _ _ _ _ (InetAddress_sort_Sorted _) Hall Hpre a).
  by rewrite list_sort_Permutation.
Qed.

Lemma collect_drops_zero_witness :
  167772161 ∈ (sort_and_preprocess (mkCollector [167772161; 0; 167772161] 5 1) ∅).1 ∧
  0 ∉ (sort_and_preprocess (mkCollector [167772161; 0; 167772161] 5 1) ∅).1.
Proof.
  assert (Forall (Z.le 0) (IPsToProbe (mkCollector [167772161; 0; 167772161] 5 1)))
    as Hpos by (repeat constructor; discriminate).
  split.
  - apply (collect_drops_zero _ ∅ 167772161 Hpos). split; [left|discriminate].
  - intros [_ Hne]%(collect_drops_zero _ ∅ 0 Hpos). by apply Hne.
Defined.

Lemma Sorted_lt_le (l : list Z) : Sorted Z.lt l → Sorted Z.le l.
Proof.
  induction 1 as [|x l Hs IH Hhd]; constructor; [done|].
  destruct Hhd; constructor. lia.
Qed.

(** A strictly ascending list above [previous] whose addresses have their
    entries passes the loop unchanged, and so does the table. *)
Lemma preprocess_fixed ttl previous l table :
  Sorted Z.lt l → Forall (Z.lt previous) l →
  (∀ a, a ∈ l → is_Some (table !! a)) →
  preprocess ttl previous l table = (l, table).
Proof.
  revert previous. induction l as [|current rest IH]; intros previous Hs Hall Hin.
  { done. }
  apply Sorted_StronglySorted in Hs; [|apply _].
  apply StronglySorted_cons in Hs as [Hrest Hs].
  apply StronglySorted_Sorted in Hs.
  apply Forall_cons in Hall as [Hcur _].
  cbn [preprocess]. unfold InetAddress_eq, lookUp.
  destruct (Z.eqb_spec current previous) as [?|_]; [lia|].
  destruct (Hin current) as [e ->]; [left|].
  rewrite (IH current Hs Hrest); [done|].
  intros a Ha. apply Hin. by right.
Qed.

(** X8: the preprocessing of collect is idempotent.  With addresses in the
    range of their unsigned type, a collector that is given the list that
    the sort and the loop left, with the table that they left, keeps both
    as they are, whatever its TTL. *)
Theorem sort_and_preprocess_idempotent c table ttl counter :
  Forall (Z.le 0) (IPsToProbe c) →
  sort_and_preprocess
    (mkCollector (sort_and_preprocess c table).1 ttl counter)
    (sort_and_preprocess c table).2
  = sort_and_preprocess c table.
Proof.
  intros Hpos.
  assert (Forall (Z.le 0) (list_sort InetAddress_smaller (IPsToProbe c)))
    as Hall by (by rewrite list_sort_Permutation).
  unfold sort_and_preprocess at 1. cbn [IPsToProbe currentTTL].
  unfold sort_and_preprocess.
  destruct (preprocess (currentTTL c) _ _ _) as [kept table2] eqn:Hpre.
  cbn [fst snd].
  destruct (preprocess_ascending _ _ _ _ _ _ (InetAddress_sort_Sorted _) Hall Hpre)
    as [Hs Hgt].
  rewrite (list_sort_Sorted_id (λ a : Z, a)) by (by apply Sorted_lt_le).
  apply preprocess_fixed; [done..|].
  apply (preprocess_kept_in_table _ _ _ _ _ _ Hpre).
Qed.

Lemma sort_and_preprocess_idempotent_witness :
  (sort_and_preprocess (mkCollector [5; 0; 3; 5; 0; 3] 7 1) ∅).1 = [3; 5] ∧
  sort_and_preprocess
    (mkCollector (sort_and_preprocess (mkCollector [5; 0; 3; 5; 0; 3] 7 1) ∅).1 9 1)
    (sort_and_preprocess (mkCollector [5; 0; 3; 5; 0; 3] 7 1) ∅).2
  = sort_and_preprocess (mkCollector [5; 0; 3; 5; 0; 3] 7 1) ∅.
Proof.
  split; [reflexivity|].
  apply (sort_and_preprocess_idempotent (mkCollector [5; 0; 3; 5; 0; 3] 7 1) ∅ 9 1).
  repeat constructor; discriminate.
Defined.

Lemma preprocess_all_previous ttl previous l table :
  (∀ a, a ∈ l → a = previous) → preprocess ttl previous l table = ([], table).
Proof.
  induction l as [|current rest IH]; intros Hall; [done|].
  cbn [preprocess]. unfold InetAddress_eq.
  rewrite (Hall current) by left. rewrite Z.eqb_refl.
  apply IH. intros a Ha. apply Hall. by right.
Qed.

(** *** The slots of the four phases *)

(** A run of the phases on a list that is not empty has room for one
    collector at least. *)
Lemma run_phases_room env dp ips events :
  run_phases env dp ips = Some events → ips ≠ [] →
  to_ushort (getNbIPIDs env) + 1 ≤ to_ushort (getMaxThreads env).
Proof.
  intros Hrun Hips.
  destruct (Z.lt_ge_cases (to_ushort (getMaxThreads env))
              (to_ushort (getNbIPIDs env) + 1)) as [Hlt|Hge]; [exfalso|done].
  pose proof (run_phases_undefined
                (mkEnv (to_ushort (getMaxThreads env)) (to_ushort (getNbIPIDs env)))
                dp ips (is_ushort_to_ushort _) (is_ushort_to_ushort _) Hips Hlt)
    as Hnone.
  unfold run_phases in Hrun, Hnone. cbn [getMaxThreads getNbIPIDs] in Hnone.
  rewrite !to_ushort_idemp in Hnone. congruence.
Qed.

Lemma collectors_in_bounds maxThreads nbIPIDs ips :
  is_ushort maxThreads → is_ushort nbIPIDs → nbIPIDs + 1 ≤ maxThreads →
  ips ≠ [] →
  let nbThreads := collectors_nbThreads maxThreads nbIPIDs (Z.of_nat (length ips)) in
  0 < nbThreads ∧ nbThreads * (nbIPIDs + 1) ≤ maxThreads ∧
  in_bounds nbThreads ips 0 (replicate (Z.to_nat nbThreads) None).
Proof.
  intros Hm Hn Hle Hips nbThreads. subst nbThreads.
  assert (0 < Z.of_nat (length ips)) as Hpos by (destruct ips; [done|simpl; lia]).
  rewrite collectors_nbThreads_min by done.
  unfold is_ushort, USHORT_MOD in *.
  assert (1 ≤ maxThreads / (nbIPIDs + 1) ≤ maxThreads) as Hq.
  { split; [apply Z.div_le_lower_bound; lia|apply Z.div_le_upper_bound; nia]. }
  assert (maxThreads / (nbIPIDs + 1) * (nbIPIDs + 1) ≤ maxThreads) as Hmul.
  { rewrite Z.mul_comm. apply Z.mul_div_le. lia. }
  split; [lia|]. split; [nia|].
  unfold in_bounds, USHORT_MOD. rewrite length_replicate. lia.
Qed.

(** The four loops of a run on a list that is not empty, each inside of
    its array. *)
Lemma run_phases_loops env dp ips events :
  run_phases env dp ips = Some events → ips ≠ [] →
  ∃ range th1 events1 th2 events2 th3 events3 th4 events4,
    let maxThreads := to_ushort (getMaxThreads env) in
    let nbIPIDs := to_ushort (getNbIPIDs env) in
    let nbThreads := collectors_nbThreads maxThreads nbIPIDs (Z.of_nat (length ips)) in
    let n := Z.to_nat (units_nbThreads maxThreads (Z.of_nat (length ips))) in
    port_range dp maxThreads = Some range ∧
    (0 < nbThreads ∧ nbThreads * (nbIPIDs + 1) ≤ maxThreads ∧
     in_bounds nbThreads ips 0 (replicate (Z.to_nat nbThreads) None)) ∧
    in_bounds maxThreads ips 0 (replicate n None) ∧
    schedule (phase1_unit nbIPIDs) nbThreads ips 0
      (replicate (Z.to_nat nbThreads) None) = Some (th1, events1) ∧
    schedule (phase2_unit dp range) maxThreads ips 0 (replicate n None)
    = Some (th2, events2) ∧
    schedule (phase3_unit dp range) maxThreads ips 0 (replicate n None)
    = Some (th3, events3) ∧
    schedule phase4_unit maxThreads ips 0 (replicate n None) = Some (th4, events4) ∧
    events = (events1 ++ drain 0 th1) ++ (events2 ++ drain 0 th2)
             ++ (events3 ++ drain 0 th3) ++ (events4 ++ drain 0 th4).
Proof.
  intros Hrun Hips. pose proof (run_phases_room _ _ _ _ Hrun Hips) as Hroom.
  apply run_phases_inv in Hrun as [[-> _]|Hrun]; [done|].
  destruct Hrun as (range & th1 & events1 & th2 & events2 & th3 & events3
                    & th4 & events4 & _ & Hrange & H1 & H2 & H3 & H4 & ->).
  exists range, th1, events1, th2, events2, th3, events3, th4, events4.
  intros maxThreads nbIPIDs nbThreads n.
  pose proof (schedule_length _ _ _ _ _ _ _ H2) as Hlen2.
  pose proof (schedule_length _ _ _ _ _ _ _ H3) as Hlen3.
  unfold cleared in H3, H4, Hlen3.
  rewrite length_replicate in Hlen2. rewrite Hlen2 in H3, Hlen3.
  rewrite length_replicate in Hlen3. rewrite Hlen3 in H4.
  split; [done|]. split.
  { apply collectors_in_bounds; [apply is_ushort_to_ushort..|done|done]. }
  split; [|done].
  apply units_in_bounds; [apply is_ushort_to_ushort| |done].
  pose proof (is_ushort_to_ushort (getNbIPIDs env)) as Hn.
  unfold is_ushort in Hn. subst maxThreads. lia.
Qed.

Lemma starts_app events1 events2 :
  starts (events1 ++ events2) = starts events1 ++ starts events2.
Proof. apply omap_app. Qed.

Lemma starts_drain i th : starts (drain i th) = [].
Proof.
  revert i. induction th as [|[u|] th IH]; intros i; [done|..];
    cbn [drain]; [unfold starts; cbn [omap]|]; apply IH.
Qed.

(** The slots of a scheduling loop are taken in turn. *)
Lemma schedule_starts mk limit ips j th th2 events :
  in_bounds limit ips j th →
  schedule mk limit ips j th = Some (th2, events) →
  starts events
  = imap (λ i ip, ((j + Z.of_nat i) mod limit,
                   mk ((j + Z.of_nat i) mod limit) ip)) ips.
Proof.
  revert j th events.
  induction ips as [|ip rest IH]; intros j th events Hb Hrun.
  - by injection Hrun as <- <-.
  - apply schedule_cons_inv in Hrun
      as (th1 & events1 & events2 & Hd & Hrest & ->).
    apply dispatch_inv in Hd as (_ & -> & Hev).
    apply (in_bounds_step _ _ _ _ _ (Some (mk j ip))) in Hb
      as (Hj & Hlt & Hj1 & Hb).
    rewrite Hj1 in Hrest.
    rewrite starts_app, (IH _ _ _ Hb Hrest). cbn [imap].
    assert (starts events1 = [(j, mk j ip)]) as ->.
    { by destruct Hev as [[-> _]|(old & -> & _)]. }
    cbn [app]. rewrite Z.add_0_r, Z.mod_small by done. f_equal.
    apply imap_ext. intros i x _. cbn [compose].
    assert (((if j + 1 =? limit then 0 else j + 1) + Z.of_nat i) mod limit
            = (j + Z.of_nat (S i)) mod limit) as ->; [|done].
    destruct (Z.eqb_spec (j + 1) limit) as [Heq|Hne].
    + replace (j + Z.of_nat (S i)) with (Z.of_nat i + 1 * limit) by lia.
      by rewrite Z_mod_plus_full.
    + f_equal. lia.
Qed.

Lemma schedule_round_robin mk limit ips th th2 events :
  in_bounds limit ips 0 th →
  schedule mk limit ips 0 th = Some (th2, events) →
  starts (events ++ drain 0 th2) = round_robin mk limit ips.
Proof.
  intros Hb Hrun.
  by rewrite starts_app, starts_drain, app_nil_r, (schedule_starts _ _ _ _ _ _ _ Hb Hrun).
Qed.

Lemma round_robin_targets mk limit ips :
  (∀ j ip, unit_target (mk j ip) = ip) →
  (λ p, unit_target p.2) <$> round_robin mk limit ips = ips.
Proof.
  intros Hmk. unfold round_robin.
  assert (∀ slot : nat → Z,
            (λ p, unit_target p.2) <$> imap (λ i ip, (slot i, mk (slot i) ip)) ips
            = ips) as Hgen; [|apply (Hgen (λ i, Z.of_nat i mod limit))].
  induction ips as [|ip rest IH]; intros slot; [done|].
  cbn [imap fmap list_fmap snd]. rewrite Hmk. f_equal.
  apply (IH (slot ∘ S)).
Qed.

Lemma run_phases_starts env dp ips events :
  run_phases env dp ips = Some events →
  let maxThreads := to_ushort (getMaxThreads env) in
  let nbIPIDs := to_ushort (getNbIPIDs env) in
  ∃ range,
    (ips = [] ∨ port_range dp maxThreads = Some range) ∧
    starts events
    = round_robin (phase1_unit nbIPIDs)
        (collectors_nbThreads maxThreads nbIPIDs (Z.of_nat (length ips))) ips
      ++ round_robin (phase2_unit dp range) maxThreads ips
      ++ round_robin (phase3_unit dp range) maxThreads ips
      ++ round_robin phase4_unit maxThreads ips.
Proof.
  intros Hrun maxThreads nbIPIDs.
  destruct (decide (ips = [])) as [->|Hips].
  { injection Hrun as <-. exists 0. by split; [left|]. }
  destruct (run_phases_loops _ _ _ _ Hrun Hips)
    as (range & th1 & events1 & th2 & events2 & th3 & events3 & th4 & events4
        & Hrange & (_ & _ & Hb1) & Hb & H1 & H2 & H3 & H4 & ->).
  exists range. split; [by right|].
  rewrite !starts_app.
  rewrite <-(starts_app events1), <-(starts_app events2),
    <-(starts_app events3), <-(starts_app events4).
  by rewrite (schedule_round_robin _ _ _ _ _ _ Hb1 H1),
    (schedule_round_robin _ _ _ _ _ _ Hb H2),
    (schedule_round_robin _ _ _ _ _ _ Hb H3),
    (schedule_round_robin _ _ _ _ _ _ Hb H4).
Qed.

(** X9: whenever collect has a defined behaviour, each of its four phases
    starts one unit per address of the preprocessed list, in the order of
    the list, and takes the slots in turn: the address of index i runs in
    slot i mod nbThreads in phase 1 (with the offset slot * nbIPIDs) and in
    slot i mod maxThreads in phases 2 to 4 (with the ports of the slot).
    So every address is probed once by each phase, and nothing else is. *)
Theorem collect_round_robin env dp c table o :
  collect env dp c table = Some o →
  let ips := (sort_and_preprocess c table).1 in
  let maxThreads := to_ushort (getMaxThreads env) in
  let nbIPIDs := to_ushort (getNbIPIDs env) in
  ∃ range,
    (ips = [] ∨ port_range dp maxThreads = Some range) ∧
    starts (out_trace o)
    = round_robin (phase1_unit nbIPIDs)
        (collectors_nbThreads maxThreads nbIPIDs (Z.of_nat (length ips))) ips
      ++ round_robin (phase2_unit dp range) maxThreads ips
      ++ round_robin (phase3_unit dp range) maxThreads ips
      ++ round_robin phase4_unit maxThreads ips ∧
    (λ p, unit_target p.2) <$> starts (out_trace o) = ips ++ ips ++ ips ++ ips.
Proof.
  intros [Hrun _]%collect_inv ips maxThreads nbIPIDs.
  destruct (run_phases_starts _ _ _ _ Hrun) as (range & Hrange & Hstarts).
  exists range. split; [done|]. split; [done|].
  rewrite Hstarts, !fmap_app.
  by rewrite !round_robin_targets.
Qed.

Lemma collect_round_robin_witness :
  ∃ o,
    collect (mkEnv 4 1) (mkPorts 39000 64000 33434 33534)
      (mkCollector [167772163; 167772161; 167772163; 167772162] 5 1) ∅ = Some o ∧
    (λ p, unit_target p.2) <$> starts (out_trace o)
    = [167772161; 167772162; 167772163; 167772161; 167772162; 167772163;
       167772161; 167772162; 167772163; 167772161; 167772162; 167772163].
Proof.
  destruct (collect (mkEnv 4 1) (mkPorts 39000 64000 33434 33534)
              (mkCollector [167772163; 167772161; 167772163; 167772162] 5 1) ∅)
    as [o|] eqn:Hrun; [|vm_compute in Hrun; discriminate].
  exists o. split; [done|].
  destruct (collect_round_robin _ _ _ _ _ Hrun) as (range & _ & _ & ->).
  reflexivity.
Defined.

(** X11: collect starts no thread, and leaves the table as it is, exactly
    when there is nothing to probe: the list is empty or holds 0.0.0.0
    only.  It returns before it sizes its arrays, so this holds for every
    configuration, also with maxThreads = 0. *)
Theorem collect_starts_nothing env dp c table :
  Forall (Z.le 0) (IPsToProbe c) →
  ((∀ a, a ∈ IPsToProbe c → a = 0) →
   ∃ o, collect env dp c table = Some o ∧
        out_trace o = [] ∧ out_table o = table) ∧
  (∀ o, collect env dp c table = Some o → out_trace o = [] →
        ∀ a, a ∈ IPsToProbe c → a = 0).
Proof.
  intros Hpos. split.
  - intros Hzero. unfold collect, sort_and_preprocess.
    rewrite preprocess_all_previous; [by eexists|].
    intros a Ha. apply Hzero. by rewrite list_sort_Permutation in Ha.
  - intros o [Hrun _]%collect_inv Hnil a Ha.
    destruct (run_phases_starts _ _ _ _ Hrun) as (range & _ & Hstarts).
    rewrite Hnil in Hstarts. symmetry in Hstarts.
    apply app_eq_nil in Hstarts as [Hstarts _].
    apply (f_equal length) in Hstarts. unfold round_robin in Hstarts.
    rewrite length_imap in Hstarts. apply nil_length_inv in Hstarts.
    destruct (decide (a = 0)) as [|Hne]; [done|exfalso].
    unfold sort_and_preprocess in Hstarts.
    destruct (preprocess _ _ _ _) as [kept table2] eqn:Hpre.
    cbn [fst] in Hstarts. subst kept.
    assert (Forall (Z.le 0) (list_sort InetAddress_smaller (IPsToProbe c)))
      as Hall by (by rewrite list_sort_Permutation).
    apply (elem_of_nil a).
    apply (preprocess_kept _ _ _ _ _ _ (InetAddress_sort_Sorted _) Hall Hpre a).
    by rewrite list_sort_Permutation.
Qed.

Lemma collect_starts_nothing_witness :
  ∃ o, collect (mkEnv 0 4) (mkPorts 39000 64000 33434 33534)
         (mkCollector [0; 0] 5 1) ∅ = Some o ∧
       out_trace o = [] ∧ out_table o = ∅.
Proof.
  apply (collect_starts_nothing (mkEnv 0 4) (mkPorts 39000 64000 33434 33534)
           (mkCollector [0; 0] 5 1) ∅).
  - repeat constructor; discriminate.
  - intros a Ha. cbn [IPsToProbe] in Ha.
    apply elem_of_cons in Ha as [->|Ha]; [done|].
    by apply list_elem_of_singleton in Ha.
Defined.

(** *** The number of workers that run *)

Lemma phase_slots mk limit ips n th2 events :
  in_bounds limit ips 0 (replicate n None) →
  schedule mk limit ips 0 (replicate n None) = Some (th2, events) →
  Forall (λ e, 0 ≤ event_slot e < limit) (events ++ drain 0 th2).
Proof.
  intros Hb Hrun.
  destruct (schedule_events (λ j _, 0 ≤ j < limit) mk _ _ _ _ _ _
              (λ j ip _ Hj, Hj) Hb (pool_ok_replicate _ _) Hrun) as [Hth Hev].
  apply Forall_app. split; [done|].
  apply (drain_events (λ j _, 0 ≤ j < limit)).
  intros k u Hk. rewrite Z.add_0_l. by apply (Hth k u).
Qed.

(** Workers in slots below [limit] are [limit] at most. *)
Lemma size_slots (running : gmap Z Runnable) limit :
  0 ≤ limit →
  (∀ j u, running !! j = Some u → 0 ≤ j < limit) →
  Z.of_nat (size running) ≤ limit.
Proof.
  intros Hlimit Hslots.
  assert (dom running ⊆ (list_to_set (seqZ 0 limit) : gset Z)) as Hsub.
  { intros j [u Hu]%elem_of_dom. apply elem_of_list_to_set, elem_of_seqZ.
    specialize (Hslots j u Hu). lia. }
  apply subseteq_size in Hsub.
  rewrite size_dom, size_list_to_set, length_seqZ in Hsub by apply NoDup_seqZ.
  lia.
Qed.

(** In the events of a run the slots are below maxThreads, and those of the
    collectors of phase 1 below the size of their array. *)
Lemma run_phases_slots env dp ips events :
  run_phases env dp ips = Some events →
  let maxThreads := to_ushort (getMaxThreads env) in
  let nbIPIDs := to_ushort (getNbIPIDs env) in
  ∃ nbThreads,
    0 ≤ nbThreads ∧ nbThreads * (nbIPIDs + 1) ≤ maxThreads ∧
    Forall (λ e, 0 ≤ event_slot e < maxThreads ∧
                 (phase_of (event_unit e) = 1 → event_slot e < nbThreads)) events.
Proof.
  intros Hrun maxThreads nbIPIDs.
  pose proof (is_ushort_to_ushort (getMaxThreads env)) as Hm.
  pose proof (is_ushort_to_ushort (getNbIPIDs env)) as Hn.
  unfold is_ushort in Hm, Hn. fold maxThreads in Hm. fold nbIPIDs in Hn.
  destruct (decide (ips = [])) as [->|Hips].
  { injection Hrun as <-. exists 0. split; [done|]. split; [lia|constructor]. }
  destruct (run_phases_loops _ _ _ _ Hrun Hips)
    as (range & th1 & events1 & th2 & events2 & th3 & events3 & th4 & events4
        & Hrange & (Hpos & Hroom & Hb1) & Hb & H1 & H2 & H3 & H4 & ->).
  fold maxThreads nbIPIDs in Hpos, Hroom, Hb1, Hb, H1, H2, H3, H4.
  set (nbThreads := collectors_nbThreads maxThreads nbIPIDs (Z.of_nat (length ips)))
    in *.
  exists nbThreads. split; [lia|]. split; [done|].
  assert (∀ mk th events,
            (∀ j ip, phase_of (mk j ip) ≠ 1) →
            schedule mk maxThreads ips 0
              (replicate (Z.to_nat (units_nbThreads maxThreads (Z.of_nat (length ips))))
                 None) = Some (th, events) →
            Forall (λ e, 0 ≤ event_slot e < maxThreads ∧
                         (phase_of (event_unit e) = 1 → event_slot e < nbThreads))
              (events ++ drain 0 th)) as Hunits.
  { intros mk th events Hmk Hs.
    pose proof (phase_slots _ _ _ _ _ _ Hb Hs) as Hslots.
    pose proof (phase_units (λ u, phase_of u ≠ 1) _ _ _ _ _ _ Hmk Hs) as Hph.
    rewrite Forall_forall in Hslots, Hph. apply Forall_forall.
    intros e He. split; [by apply Hslots|]. intros H. by destruct (Hph e He). }
  apply Forall_app. split; [|apply Forall_app; split; [|apply Forall_app; split]].
  - eapply Forall_impl; [exact (phase_slots _ _ _ _ _ _ Hb1 H1)|].
    intros e He. cbn beta in He. split; [nia|lia].
  - by apply (Hunits (phase2_unit dp range)).
  - by apply (Hunits (phase3_unit dp range)).
  - by apply (Hunits phase4_unit).
Qed.

(** X10: collect keeps to its budget of threads.  At every point of a run
    with a defined behaviour the workers that run are maxThreads at most,
    and the IPIDCollector units among them, counted with the nbIPIDs
    probing threads of each (the + 1 of line 71 is the collector itself),
    take maxThreads threads at most. *)
Theorem collect_thread_budget env dp c table o pre post :
  collect env dp c table = Some o → out_trace o = pre ++ post →
  ∃ running,
    replay pre ∅ = Some running ∧
    Z.of_nat (size running) ≤ to_ushort (getMaxThreads env) ∧
    Z.of_nat (size (filter (λ p : Z * Runnable, phase_of p.2 = 1) running))
      * (to_ushort (getNbIPIDs env) + 1)
    ≤ to_ushort (getMaxThreads env).
Proof.
  intros [Hrun _]%collect_inv Htrace.
  pose proof (run_phases_replay _ _ _ _ Hrun) as Hreplay.
  destruct (run_phases_slots _ _ _ _ Hrun) as (nbThreads & Hpos & Hroom & Hslots).
  rewrite Htrace in Hreplay, Hslots. rewrite replay_app in Hreplay.
  destruct (replay pre ∅) as [running|] eqn:Hpre; [|done].
  exists running. split; [done|].
  apply Forall_app in Hslots as [Hslots _]. rewrite Forall_forall in Hslots.
  assert (∀ j u, running !! j = Some u →
            0 ≤ j < to_ushort (getMaxThreads env) ∧ (phase_of u = 1 → j < nbThreads))
    as Hrunning.
  { intros j u Hu.
    destruct (replay_started _ _ _ _ _ Hpre Hu) as [Hin|Hin]; [|done].
    apply (Hslots _ Hin). }
  pose proof (is_ushort_to_ushort (getNbIPIDs env)) as Hn. unfold is_ushort in Hn.
  split.
  - apply size_slots; [nia|]. intros j u Hu. by destruct (Hrunning j u Hu).
  - assert (Z.of_nat (size (filter (λ p : Z * Runnable, phase_of p.2 = 1) running))
            ≤ nbThreads) as Hsize; [|nia].
    apply size_slots; [done|].
    intros j u [Hu Hph]%map_lookup_filter_Some. cbn [snd] in Hph.
    destruct (Hrunning j u Hu) as [Hj Hlt]. specialize (Hlt Hph). lia.
Qed.

Lemma collect_thread_budget_witness :
  ∃ o running,
    collect (mkEnv 4 1) (mkPorts 39000 64000 33434 33534)
      (mkCollector [167772163; 167772161; 167772163; 167772162] 5 1) ∅ = Some o ∧
    replay (take 2 (out_trace o)) ∅ = Some running ∧
    size running = 2%nat ∧
    Z.of_nat (size (filter (λ p : Z * Runnable, phase_of p.2 = 1) running)) * 2 ≤ 4.
Proof.
  destruct (collect (mkEnv 4 1) (mkPorts 39000 64000 33434 33534)
              (mkCollector [167772163; 167772161; 167772163; 167772162] 5 1) ∅)
    as [o|] eqn:Hrun; [|vm_compute in Hrun; discriminate].
  destruct (collect_thread_budget _ _ _ _ _ (take 2 (out_trace o))
              (drop 2 (out_trace o)) Hrun)
    as (running & Hreplay & _ & Hbudget); [by rewrite take_drop|].
  exists o, running. split; [done|]. split; [done|]. split; [|exact Hbudget].
  vm_compute in Hrun. injection Hrun as <-.
  cbn [out_trace take replay] in Hreplay.
  rewrite lookup_empty in Hreplay.
  rewrite lookup_insert_ne, lookup_empty in Hreplay by done.
  injection Hreplay as <-.
  rewrite !map_size_insert_None; [by rewrite map_size_empty|done|].
  by rewrite lookup_insert_ne.
Defined.

(** *** The run without room for a collector *)

Lemma dispatch_unchecked_agrees th running j u th1 events1 :
  represents 0 th running → 0 ≤ j →
  dispatch th j u = Some (th1, events1) →
  dispatch_unchecked running j u = (<[j := u]> running, events1) ∧
  represents 0 th1 (<[j := u]> running).
Proof.
  intros Hrep Hj (Hlt & -> & Hev)%dispatch_inv.
  split; [|by apply represents_insert].
  unfold dispatch_unchecked.
  destruct Hev as [[-> Hslot]|(old & -> & Hslot)].
  - destruct (running !! j) as [old|] eqn:Hold; [|done].
    apply Hrep in Hold as [_ Hold]. rewrite Z.sub_0_r in Hold. congruence.
  - assert (running !! j = Some old) as ->; [|done].
    apply Hrep. rewrite Z.sub_0_r. done.
Qed.

Lemma schedule_unchecked_agrees mk limit ips j th running th2 events :
  represents 0 th running → 0 ≤ j →
  schedule mk limit ips j th = Some (th2, events) →
  ∃ running2, schedule_unchecked mk limit ips j running = (running2, events) ∧
              represents 0 th2 running2.
Proof.
  revert j th running events.
  induction ips as [|ip rest IH]; intros j th running events Hrep Hj Hrun.
  - injection Hrun as <- <-. by exists running.
  - apply schedule_cons_inv in Hrun
      as (th1 & events1 & events2 & Hd & Hrest & ->).
    destruct (dispatch_unchecked_agrees _ _ _ _ _ _ Hrep Hj Hd) as [Hd' Hrep1].
    assert (0 ≤ (if to_ushort (j + 1) =? limit then 0 else to_ushort (j + 1)))
      as Hj2.
    { pose proof (is_ushort_to_ushort (j + 1)) as Hu. unfold is_ushort in Hu.
      destruct (to_ushort (j + 1) =? limit); lia. }
    destruct (IH _ _ _ _ Hrep1 Hj2 Hrest) as (running2 & Hrest' & Hrep2).
    exists running2. split; [|done].
    cbn [schedule_unchecked]. by rewrite Hd', Hrest'.
Qed.

Lemma drain_unchecked_agrees i th running :
  represents i th running →
  drain_unchecked (length th) i running = (∅, drain i th).
Proof.
  revert i running. induction th as [|slot th IH]; intros i running Hrep.
  - cbn [length drain_unchecked drain]. f_equal. apply map_empty. intros j.
    destruct (running !! j) as [u|] eqn:Hu; [|done].
    by apply Hrep in Hu as [_ Hu].
  - pose proof (represents_tail _ _ _ _ Hrep) as Htail.
    cbn [length drain_unchecked drain]. destruct slot as [u|].
    + assert (running !! i = Some u) as ->.
      { apply Hrep. split; [lia|]. by rewrite Z.sub_diag. }
      by rewrite (IH _ _ Htail).
    + assert (running !! i = None) as Hnone.
      { destruct (running !! i) as [u|] eqn:Hu; [|done].
        apply Hrep in Hu as [_ Hu]. by rewrite Z.sub_diag in Hu. }
      rewrite Hnone. rewrite delete_id in Htail by done. by apply IH.
Qed.

Lemma phase_unchecked_agrees mk limit ips n th2 events :
  schedule mk limit ips 0 (replicate n None) = Some (th2, events) →
  ∃ running2,
    schedule_unchecked mk limit ips 0 ∅ = (running2, events) ∧
    drain_unchecked n 0 running2 = (∅, drain 0 th2).
Proof.
  intros Hrun.
  destruct (schedule_unchecked_agrees _ _ _ _ _ _ _ _
              (represents_replicate n) (Z.le_refl 0) Hrun)
    as (running2 & Hrun' & Hrep).
  exists running2. split; [done|].
  apply schedule_length in Hrun. rewrite length_replicate in Hrun.
  rewrite <-Hrun. by apply drain_unchecked_agrees.
Qed.

(** Where the indices stay inside of the arrays the loops without a check
    do what [run_phases] does. *)
Lemma run_phases_unchecked_agrees env dp ips events :
  run_phases env dp ips = Some events →
  run_phases_unchecked env dp ips = Some events.
Proof.
  intros [[-> ->]|Hrun]%run_phases_inv; [done|].
  destruct Hrun as (range & th1 & events1 & th2 & events2 & th3 & events3
                    & th4 & events4 & Hips & Hrange & H1 & H2 & H3 & H4 & ->).
  pose proof (schedule_length _ _ _ _ _ _ _ H2) as Hlen2.
  pose proof (schedule_length _ _ _ _ _ _ _ H3) as Hlen3.
  unfold cleared in H3, H4, Hlen3.
  rewrite length_replicate in Hlen2. rewrite Hlen2 in H3, Hlen3.
  rewrite length_replicate in Hlen3. rewrite Hlen3 in H4.
  destruct (phase_unchecked_agrees _ _ _ _ _ _ H1) as (r1 & Hs1 & Hd1).
  destruct (phase_unchecked_agrees _ _ _ _ _ _ H2) as (r2 & Hs2 & Hd2).
  destruct (phase_unchecked_agrees _ _ _ _ _ _ H3) as (r3 & Hs3 & Hd3).
  destruct (phase_unchecked_agrees _ _ _ _ _ _ H4) as (r4 & Hs4 & Hd4).
  unfold run_phases_unchecked.
  destruct (Z.eqb_spec (Z.of_nat (length ips)) 0) as [Hnil|_].
  { destruct ips; [done|]. simpl in Hnil. lia. }
  rewrite Hs1, Hd1, Hrange. cbn [mbind option_bind].
  by rewrite Hs2, Hd2, Hs3, Hd3, Hs4, Hd4.
Qed.

Lemma collect_unchecked_agrees env dp c table o :
  collect env dp c table = Some o → collect_unchecked env dp c table = Some o.
Proof.
  unfold collect, collect_unchecked.
  destruct (sort_and_preprocess c table) as [ips table1].
  destruct (run_phases env dp ips) as [events|] eqn:Hrun; [|done].
  intros [= <-]. by rewrite (run_phases_unchecked_agrees _ _ _ _ Hrun).
Qed.

(** C9: the barrier does not hold for every input list.  With two
    addresses, maxThreads = 2 and nbIPIDs = 4 there is room for no
    collector: the array of phase 1 has no slot, the first iteration of its
    loop uses [th[0]], and collect has no defined behaviour.  The loops
    without a check of the index start the two collectors in the cells
    behind the array; the loop that waits for the threads visits the slots
    of the array, of which there is none, and joins nothing; phase 2 then
    starts its units while both collectors run, and no collector is ever
    joined.  Where collect has a defined behaviour these loops do the same
    ([collect_unchecked_agrees]). *)
Theorem phase_barrier_broken :
  collect (mkEnv 2 4) (mkPorts 39000 64000 33434 33534)
    (mkCollector [167772161; 167772162] 5 1) ∅ = None ∧
  ∃ trace,
    out_trace <$> collect_unchecked (mkEnv 2 4) (mkPorts 39000 64000 33434 33534)
                    (mkCollector [167772161; 167772162] 5 1) ∅ = Some trace ∧
    trace =
      [Start 0 (IPIDCollector 167772161 0);
       Start 1 (IPIDCollector 167772162 4);
       Start 0 (UDPUnreachablePortUnit 167772161 39000 51499 33434 33534);
       Start 1 (UDPUnreachablePortUnit 167772162 51500 63999 33434 33534);
       Join 0 (UDPUnreachablePortUnit 167772161 39000 51499 33434 33534);
       Join 1 (UDPUnreachablePortUnit 167772162 51500 63999 33434 33534);
       Start 0 (TimestampCheckUnit 167772161 39000 51499 33434 33534);
       Start 1 (TimestampCheckUnit 167772162 51500 63999 33434 33534);
       Join 0 (TimestampCheckUnit 167772161 39000 51499 33434 33534);
       Join 1 (TimestampCheckUnit 167772162 51500 63999 33434 33534);
       Start 0 (ReverseDNSUnit 167772161);
       Start 1 (ReverseDNSUnit 167772162);
       Join 0 (ReverseDNSUnit 167772161);
       Join 1 (ReverseDNSUnit 167772162)] ∧
    ¬ barrier trace ∧
    ¬ drained trace ∧
    (∀ j u, phase_of u = 1 → Join j u ∉ trace).
Proof.
  split; [reflexivity|]. eexists. split; [vm_compute; reflexivity|].
  split; [reflexivity|]. split; [|split].
  - intros Hbar.
    destruct (Hbar [Start 0 (IPIDCollector 167772161 0);
                    Start 1 (IPIDCollector 167772162 4)]
                0 (UDPUnreachablePortUnit 167772161 39000 51499 33434 33534)
                _ eq_refl 0 (IPIDCollector 167772161 0)) as [_ Hjoin]; [done|].
    specialize (Hjoin [] [Start 1 (IPIDCollector 167772162 4)] eq_refl).
    by apply list_elem_of_singleton in Hjoin.
  - intros Hdr.
    specialize (Hdr [] 0 (IPIDCollector 167772161 0) _ eq_refl).
    repeat (apply elem_of_cons in Hdr as [Hdr|Hdr]; [discriminate Hdr|]).
    by apply elem_of_nil in Hdr.
  - intros j u Hph Hin.
    repeat (apply elem_of_cons in Hin as [Hin|Hin];
            [try discriminate Hin; injection Hin as _ ->; discriminate Hph|]).
    by apply elem_of_nil in Hin.
Qed.

End AliasHintCollectorFacts.

(** ** SubnetSiteSet *)

Module SubnetSiteSetFacts.
Import SubnetSiteSet.

Lemma route_begins_with_prefix oldPrefix r :
  route_begins_with oldPrefix r = true ↔ oldPrefix `prefix_of` r.
Proof.
  revert r. induction oldPrefix as [|p old IH]; intros [|hop r]; cbn.
  - split; [intros _; apply prefix_nil|done].
  - split; [intros _; apply prefix_nil|done].
  - split; [done|]. by intros ?%prefix_nil_not.
  - unfold InetAddress_eq. rewrite andb_true_iff, Z.eqb_eq, IH. split.
    + intros [-> H]. by apply prefix_cons.
    + intros H. split.
      * symmetry. by eapply prefix_cons_inv_1.
      * by eapply prefix_cons_inv_2.
Qed.

Lemma route_begins_with_take oldPrefix r :
  route_begins_with oldPrefix r = true ↔ take (length oldPrefix) r = oldPrefix.
Proof.
  rewrite route_begins_with_prefix. split.
  - intros [k ->]. by rewrite take_app_length.
  - intros <-. apply prefix_take.
Qed.

Lemma adaptRoutes_loop_sites siteList oldPrefix newPrefix nb :
  (adaptRoutes_loop siteList oldPrefix newPrefix nb).2
  = adapted oldPrefix newPrefix <$> siteList.
Proof.
  revert nb. induction siteList as [|ss rest IH]; intros nb; [done|].
  cbn [adaptRoutes_loop fmap list_fmap]. unfold adapted at 1.
  destruct (route_begins_with oldPrefix (route ss)).
  - specialize (IH (to_ushort (nb + 1))).
    destruct (adaptRoutes_loop rest _ _ _) as [n rest']. cbn in *. by rewrite IH.
  - specialize (IH nb).
    destruct (adaptRoutes_loop rest _ _ _) as [n rest']. cbn in *. by rewrite IH.
Qed.

Lemma adaptRoutes_loop_count siteList oldPrefix newPrefix nb :
  (adaptRoutes_loop siteList oldPrefix newPrefix nb).1
  = match matching oldPrefix siteList with
    | [] => nb
    | _ :: _ => to_ushort (nb + Z.of_nat (length (matching oldPrefix siteList)))
    end.
Proof.
  revert nb. induction siteList as [|ss rest IH]; intros nb; [done|].
  cbn [adaptRoutes_loop]. unfold matching in *. cbn [filter list_filter].
  destruct (route_begins_with oldPrefix (route ss)) eqn:Hb.
  - rewrite decide_True by done.
    specialize (IH (to_ushort (nb + 1))).
    destruct (adaptRoutes_loop rest _ _ _) as [n rest']. cbn [fst] in *.
    rewrite IH. cbn [length].
    destruct (filter _ rest) as [|s l]; [cbn; f_equal; lia|].
    unfold to_ushort. rewrite Zplus_mod_idemp_l. f_equal. cbn [length]. lia.
  - rewrite decide_False by done.
    specialize (IH nb).
    destruct (adaptRoutes_loop rest _ _ _) as [n rest']. cbn [fst] in *.
    by rewrite IH.
Qed.

Lemma adaptRoutes_sites siteList oldPrefix newPrefix :
  (adaptRoutes siteList oldPrefix newPrefix).2
  = adapted oldPrefix newPrefix <$> siteList.
Proof. apply adaptRoutes_loop_sites. Qed.

Lemma adaptRoutes_count siteList oldPrefix newPrefix :
  (adaptRoutes siteList oldPrefix newPrefix).1
  = to_ushort (Z.of_nat (length (matching oldPrefix siteList))).
Proof.
  unfold adaptRoutes. rewrite adaptRoutes_loop_count.
  by destruct (matching oldPrefix siteList).
Qed.

(** A route that was adapted begins with the new prefix. *)
Lemma adaptRoute_begins ss oldPrefix newPrefix :
  route_begins_with newPrefix (route (adaptRoute ss oldPrefix newPrefix)) = true.
Proof. apply route_begins_with_prefix. cbn [adaptRoute route]. by eexists. Qed.

(** When neither prefix begins with the other, no route that a call has
    left begins with the old prefix. *)
Lemma adapted_no_match oldPrefix newPrefix ss :
  ¬ oldPrefix `prefix_of` newPrefix → ¬ newPrefix `prefix_of` oldPrefix →
  route_begins_with oldPrefix (route (adapted oldPrefix newPrefix ss)) = false.
Proof.
  intros Hon Hno. unfold adapted.
  destruct (route_begins_with oldPrefix (route ss)) eqn:Hb; [|done].
  apply not_true_is_false. rewrite route_begins_with_prefix.
  cbn [adaptRoute route]. intros Hpre.
  destruct (prefix_weak_total oldPrefix newPrefix
              (newPrefix ++ drop (length oldPrefix) (route ss))); try done.
  by apply prefix_app_r.
Qed.

Lemma matching_adapted oldPrefix newPrefix siteList :
  ¬ oldPrefix `prefix_of` newPrefix → ¬ newPrefix `prefix_of` oldPrefix →
  matching oldPrefix (adapted oldPrefix newPrefix <$> siteList) = [].
Proof.
  intros Hon Hno. induction siteList as [|ss rest IH]; [done|].
  unfold matching in *. cbn [fmap list_fmap filter list_filter].
  rewrite decide_False; [done|].
  by rewrite adapted_no_match.
Qed.

Lemma adapted_id oldPrefix newPrefix ss :
  route_begins_with oldPrefix (route ss) = false →
  adapted oldPrefix newPrefix ss = ss.
Proof. unfold adapted. by intros ->. Qed.

(** C8, as stated, fails: a second call can adapt a route again although
    the old prefix is no prefix of the new one, when the new prefix is a
    prefix of the old one; and the count is returned as an unsigned short. *)
Lemma adaptRoutes_twice :
  ¬ [167772161; 167772162] `prefix_of` [167772161] ∧
  adaptRoutes
    [mkSite 3232235776 24 ACCURATE 3232235777 4 []
       [167772161; 167772162; 167772162; 167772169]]
    [167772161; 167772162] [167772161]
  = (1, [mkSite 3232235776 24 ACCURATE 3232235777 4 []
           [167772161; 167772162; 167772169]]) ∧
  adaptRoutes
    [mkSite 3232235776 24 ACCURATE 3232235777 4 []
       [167772161; 167772162; 167772169]]
    [167772161; 167772162] [167772161]
  = (1, [mkSite 3232235776 24 ACCURATE 3232235777 4 []
           [167772161; 167772169]]) ∧
  (adaptRoutes
     (replicate (Z.to_nat 65536)
        (mkSite 3232235776 24 ACCURATE 3232235777 4 [] [167772161; 167772169]))
     [167772161] [167772163]).1 = 0.
Proof.
  split; [|split; [reflexivity|split; [reflexivity|]]].
  - intros [k Hk]. discriminate.
  - rewrite adaptRoutes_count.
    assert (∀ n ss, route_begins_with [167772161] (route ss) = true →
                    matching [167772161] (replicate n ss) = replicate n ss) as Hrep.
    { intros n ss Hb. unfold matching.
      induction n as [|n IH]; [done|]. cbn [replicate].
      rewrite filter_cons_True by done. by rewrite IH. }
    rewrite Hrep by reflexivity.
    rewrite length_replicate, Z2Nat.id by done. reflexivity.
Qed.

(** C8 (amended): a call leaves the list in its order and modifies the
    sites whose route begins with the old prefix, and no other; the route
    of a modified site is the new prefix followed by what followed the old
    one, so it begins with the new prefix; the count returned is the
    number of the modified sites as an unsigned short, the number itself
    below 65536.  A second call with the same arguments modifies no site
    and returns 0 whenever neither prefix is a prefix of the other. *)
Theorem adaptRoutes_spec siteList oldPrefix newPrefix :
  (adaptRoutes siteList oldPrefix newPrefix).2
  = adapted oldPrefix newPrefix <$> siteList ∧
  (∀ ss, take (length oldPrefix) (route ss) = oldPrefix →
     adapted oldPrefix newPrefix ss = adaptRoute ss oldPrefix newPrefix ∧
     route (adapted oldPrefix newPrefix ss)
     = newPrefix ++ drop (length oldPrefix) (route ss) ∧
     take (length newPrefix) (route (adapted oldPrefix newPrefix ss)) = newPrefix) ∧
  (∀ ss, take (length oldPrefix) (route ss) ≠ oldPrefix →
     adapted oldPrefix newPrefix ss = ss) ∧
  (adaptRoutes siteList oldPrefix newPrefix).1
  = to_ushort (Z.of_nat (length (matching oldPrefix siteList))) ∧
  (Z.of_nat (length (matching oldPrefix siteList)) < 65536 →
   (adaptRoutes siteList oldPrefix newPrefix).1
   = Z.of_nat (length (matching oldPrefix siteList))) ∧
  (¬ oldPrefix `prefix_of` newPrefix → ¬ newPrefix `prefix_of` oldPrefix →
   adaptRoutes (adaptRoutes siteList oldPrefix newPrefix).2 oldPrefix newPrefix
   = (0, (adaptRoutes siteList oldPrefix newPrefix).2)).
Proof.
  split; [apply adaptRoutes_sites|]. split; [|split; [|split; [|split]]].
  - intros ss Hb%route_begins_with_take. unfold adapted. rewrite Hb.
    split; [done|]. split; [done|]. cbn [adaptRoute route].
    by rewrite take_app_length.
  - intros ss Hb. apply adapted_id. apply not_true_is_false.
    by rewrite route_begins_with_take.
  - apply adaptRoutes_count.
  - intros Hlt. rewrite adaptRoutes_count. apply to_ushort_id.
    unfold is_ushort, USHORT_MOD. lia.
  - intros Hon Hno. rewrite adaptRoutes_sites.
    rewrite (surjective_pairing (adaptRoutes _ oldPrefix newPrefix)).
    rewrite adaptRoutes_count, adaptRoutes_sites.
    rewrite matching_adapted by done. f_equal.
    rewrite <-list_fmap_compose. apply list_fmap_ext. intros _ ss _.
    cbn [compose]. apply adapted_id. by apply adapted_no_match.
Qed.

(** The S5 scenario of the specification. *)
Lemma adaptRoutes_spec_witness :
  adaptRoutes
    [mkSite 3232235776 24 ACCURATE 3232235777 4 []
       [167772170; 167772162; 167772163; 167772169]]
    [167772170] [167772161]
  = (1, [mkSite 3232235776 24 ACCURATE 3232235777 4 []
           [167772161; 167772162; 167772163; 167772169]]) ∧
  adaptRoutes
    [mkSite 3232235776 24 ACCURATE 3232235777 4 []
       [167772161; 167772162; 167772163; 167772169]]
    [167772170] [167772161]
  = (0, [mkSite 3232235776 24 ACCURATE 3232235777 4 []
           [167772161; 167772162; 167772163; 167772169]]).
Proof.
  split; [reflexivity|].
  pose proof (adaptRoutes_spec
                [mkSite 3232235776 24 ACCURATE 3232235777 4 []
                   [167772170; 167772162; 167772163; 167772169]]
                [167772170] [167772161]) as (_ & _ & _ & _ & _ & Hidem).
  apply Hidem; intros [k Hk]; discriminate.
Defined.

End SubnetSiteSetFacts.
